(** * Melondy: plucked-string synthesis (Karplus-Strong) and strum overlay

    A shallow embedding of [melondy/synth/synthesis.py]: the feedback loop
    of [Synthesiser._vibrate], the slice-assignment mixer [_overlay], the
    composition [strum_strings], and the two [functools.cache] tables.

    Python values are modelled as follows.
    - [np.ndarray] of [np.float64]: a [list] of samples;
    - [int]: [Z];
    - a call that may raise: [outcome];
    - the two memo tables: association lists threaded through a state monad. *)

From Stdlib Require Import ZArith QArith Qcanon Qcabs Reals Lra Floats List Lia Bool.
From stdpp Require Import base list.
Import ListNotations.

(** ** Outcomes of a Python call *)

Inductive exn : Type :=
  | AssertionError
  | ZeroDivisionError
  | ValueError
  | OverflowError
  | MemoryError.

(** [Diverge] is the outcome of a call that never returns a value:
    [np.fromiter] asked, with the count [-1], to read an endless generator
    to its end (on a machine it goes on until the memory is used up). *)
Inductive outcome (T : Type) : Type :=
  | Ok (x : T)
  | Raise (e : exn)
  | Diverge.

Arguments Ok {T} x.
Arguments Raise {T} e.
Arguments Diverge {T}.

Definition obind {T U : Type} (c : outcome T) (k : T -> outcome U) : outcome U :=
  match c with
  | Ok x => k x
  | Raise e => Raise e
  | Diverge => Diverge
  end.

Declare Scope outcome_scope.
Delimit Scope outcome_scope with outcome.
Notation "'let?' x ':=' c 'in' k" := (obind c (fun x => k))
  (at level 10, x name, c at level 100, k at level 200) : outcome_scope.
Open Scope outcome_scope.

Definition is_ok {T : Type} (c : outcome T) : bool :=
  match c with Ok _ => true | _ => false end.

(** ** Sample arithmetic

    The recurrence and the mixer only add and multiply samples; the rest of
    [_vibrate] also compares the damping with [0] and [0.5], divides the
    sampling rate by the frequency and rounds the quotient. The operations
    are kept behind two interfaces so that the code can be run on binary64
    (what [np.float64] and Python's [float] are) and on exact rationals. *)

Class SampleOps (A : Type) : Type := {
  s_zero : A;
  s_add : A -> A -> A;
  s_mul : A -> A -> A
}.

Class ScalarOps (A : Type) `{SampleOps A} : Type := {
  (** the literal [0.5] *)
  s_half : A;
  (** [x == y], the comparison of values a [dict] uses on keys *)
  s_eqb : A -> A -> bool;
  (** [x < y] and [x <= y] *)
  s_ltb : A -> A -> bool;
  s_leb : A -> A -> bool;
  (** [n / x] for an [int] n: true division *)
  s_rtruediv : Z -> A -> outcome A;
  (** the builtin [round(x)] with one argument *)
  s_round : A -> outcome Z
}.

(** Round half to even of the quotient [n / d], for [0 <= n] and [0 < d]. *)
Definition round_half_even (n d : Z) : Z :=
  let q := (n / d)%Z in
  let r := (n mod d)%Z in
  match (2 * r ?= d)%Z with
  | Lt => q
  | Gt => (q + 1)%Z
  | Eq => if Z.even q then q else (q + 1)%Z
  end.

(** *** binary64 *)

Module F64.

(** [float(n)] for an [int]: correctly rounded, [OverflowError] beyond the
    binary64 range. *)
Definition of_int (n : Z) : outcome float :=
  let x := SF2Prim (binary_normalize prec emax n 0 false) in
  if is_infinity x then Raise OverflowError else Ok x.

(** [int.__truediv__] falls back to [float.__rtruediv__]: the int is
    converted first, then a zero divisor raises. *)
Definition rtruediv (n : Z) (x : float) : outcome float :=
  let? a := of_int n in
  if (x =? 0)%float then Raise ZeroDivisionError else Ok (a / x)%float.

(** [float.__round__()] with no digits: exact round-half-even to an
    [int]; NaN raises [ValueError], an infinity [OverflowError]. *)
Definition round (x : float) : outcome Z :=
  match Prim2SF x with
  | S754_nan => Raise ValueError
  | S754_infinity _ => Raise OverflowError
  | S754_zero _ => Ok 0%Z
  | S754_finite s m e =>
      let v := if (0 <=? e)%Z then (Z.pos m * 2 ^ e)%Z
               else round_half_even (Z.pos m) (2 ^ (- e)) in
      Ok (if s then (- v)%Z else v)
  end.

#[export] Instance sample_ops : SampleOps float := {
  s_zero := 0%float;
  s_add := PrimFloat.add;
  s_mul := PrimFloat.mul
}.

#[export] Instance scalar_ops : ScalarOps float := {
  s_half := 0.5%float;
  s_eqb := PrimFloat.eqb;
  s_ltb := PrimFloat.ltb;
  s_leb := PrimFloat.leb;
  s_rtruediv := rtruediv;
  s_round := round
}.

(** Equality of binary64 values as values (one NaN, two zeros). *)
#[export] Instance float_eq_dec : EqDecision float.
Proof.
  intros x y. destruct (PrimFloat.Leibniz.eqb x y) eqn:E.
  - left. by apply FloatAxioms.Leibniz.eqb_spec.
  - right. intros ->.
    by rewrite (proj2 (FloatAxioms.Leibniz.eqb_spec y y) eq_refl) in E.
Defined.

(** **** Reference definitions for the stability of the loop

    These follow the wording of the specification ("the maximum absolute
    value held in the ring buffer"), not the code. *)

(** Half the largest finite binary64 number, [sys.float_info.max / 2]:
    the sum of two numbers of at most this magnitude does not overflow. *)
Definition half_max : float := 0x1.fffffffffffffp+1022%float.

(** The largest magnitude held in a buffer, [max(abs(x) for x in buffer)],
    and [0] for an empty one. *)
Definition peak (buffer : list float) : float :=
  foldr (fun x m => if (m <? abs x)%float then abs x else m) 0%float buffer.

(** A power of two, and the value of a finite binary64 number, as real
    numbers; [0] for the values that are not finite. The proofs compare
    what the rounded operations return with these. *)
Definition bpow (e : Z) : R := powerRZ 2 e.

Definition SF2R (x : spec_float) : R :=
  match x with
  | S754_finite s m e =>
      if s then (- (IZR (Z.pos m) * bpow e))%R else (IZR (Z.pos m) * bpow e)%R
  | _ => 0%R
  end.

Definition SFfinite (x : spec_float) : bool :=
  match x with
  | S754_zero _ | S754_finite _ _ _ => true
  | _ => false
  end.

End F64.

(** *** Exact rationals

    The same operations on canonical rationals, as Python's [Fraction] has
    them: no rounding in [+] and [*], [ZeroDivisionError] on a zero divisor,
    [round] to the nearest integer with ties to even. *)

Module Exact.

Definition round_Qc (x : Qc) : Z :=
  let n := Qnum (this x) in
  let d := Z.pos (Qden (this x)) in
  if (n <? 0)%Z then (- round_half_even (- n) d)%Z else round_half_even n d.

Definition rtruediv (n : Z) (x : Qc) : outcome Qc :=
  if decide (x = Q2Qc 0) then Raise ZeroDivisionError
  else Ok (Q2Qc (inject_Z n) / x)%Qc.

#[export] Instance sample_ops : SampleOps Qc := {
  s_zero := Q2Qc 0;
  s_add := Qcplus;
  s_mul := Qcmult
}.

#[export] Instance scalar_ops : ScalarOps Qc := {
  s_half := Q2Qc (1 # 2);
  s_eqb := fun x y => bool_decide (x = y);
  s_ltb := fun x y => bool_decide (x < y)%Qc;
  s_leb := fun x y => bool_decide (x <= y)%Qc;
  s_rtruediv := rtruediv;
  s_round := fun x => Ok (round_Qc x)
}.

End Exact.

(** ** The synthesiser *)

Inductive Direction : Type := UP | DOWN.

#[global] Instance Direction_eq_dec : EqDecision Direction.
Proof. solve_decision. Defined.

Section Synth.

Context {A : Type} `{ScalarOps A}.

(** Collaborators that live in sibling modules ([temporal], [chord],
    [stroke], [instrument], [processing], [burst]) enter as parameters:
    [Time] with its [get_num_samples], [Chord], and the two
    post-processing functions. [Hertz] is a [float]. *)
Context {Time : Type} `{EqDecision Time}.
Context {Chord : Type} `{EqDecision Chord}.
Variable get_num_samples : Time -> Z -> Z.
Variables remove_dc normalise : list A -> outcome (list A).

Record Pitch : Type := { frequency : A }.

Record Velocity : Type := { direction : Direction; delay : Time }.

Record PluckedStringInstrument : Type := {
  damping : A;
  vibration : Time;
  upstroke : Chord -> list Pitch;
  downstroke : Chord -> list Pitch
}.

(** [burst_generator num_samples sampling_rate] *)
Record Synthesiser : Type := {
  instrument : PluckedStringInstrument;
  burst_generator : Z -> Z -> outcome (list A);
  sampling_rate : Z
}.

Variable self : Synthesiser.

(** *** [_vibrate]: the feedback loop *)

(** Lines 48-51: what the generator runs before it enters its loop. *)
Definition feedback_loop_buffer (frequency : A) : outcome (list A) :=
  let? quotient := s_rtruediv (sampling_rate self) frequency in
  let? num_samples := s_round quotient in
  burst_generator self num_samples (sampling_rate self).

(** [cycle(range(size))]: the index after [i]. *)
Definition cycle_next (size i : nat) : nat :=
  if decide (S i < size) then S i else 0.

(** Lines 53-55: one turn of the loop, the sample yielded and the buffer
    after the assignment. (The generator is suspended at the [yield], so
    the assignment of the last sample pulled is never run; the buffer is
    local to the generator and nothing can tell.) *)
Definition loop_body (damping : A) (buffer : list A) (i : nat) : A * list A :=
  let current_sample := nth i buffer s_zero in
  let next_sample := nth ((i + 1) mod length buffer) buffer s_zero in
  (current_sample, <[i := s_mul (s_add current_sample next_sample) damping]> buffer).

(** The first [n] turns of the loop from index [i]: the samples yielded,
    and the buffer and index reached. *)
Fixpoint feedback_loop_from (damping : A) (buffer : list A) (i n : nat)
  : list A * (list A * nat) :=
  match n with
  | O => ([], (buffer, i))
  | S n' =>
      let '(y, buffer') := loop_body damping buffer i in
      let '(ys, st) :=
        feedback_loop_from damping buffer' (cycle_next (length buffer) i) n' in
      (y :: ys, st)
  end.

(** [np.fromiter(feedback_loop(), np.float64, count)]. numpy pulls an item
    while [i < count or count == -1]. With [count = 0] and with
    [count <= -2] it pulls nothing: the generator body never starts and the
    array is empty. A positive count pulls that many items and raises
    [ValueError] when the iterator is too short. [count = -1] reads the
    iterator to its end; the loop over [cycle(range(buffer.size))] ends at
    once on an empty buffer and never on any other. *)
Definition np_fromiter_feedback_loop (frequency damping : A) (count : Z)
  : outcome (list A) :=
  if (0 <? count)%Z || (count =? -1)%Z then
    let? buffer := feedback_loop_buffer frequency in
    match buffer with
    | [] => if (0 <? count)%Z then Raise ValueError else Ok []
    | _ :: _ =>
        if (0 <? count)%Z
        then Ok (fst (feedback_loop_from damping buffer 0 (Z.to_nat count)))
        else Diverge
    end
  else Ok [].

(** Line 57: [assert 0 < damping <= 0.5]. *)
Definition damping_ok (damping : A) : bool :=
  s_ltb s_zero damping && s_leb damping s_half.

(** The body of [_vibrate], without the [@cache] wrapper. *)
Definition _vibrate_wrapped (frequency : A) (duration : Time) (damping : A)
  : outcome (list A) :=
  if damping_ok damping then
    let? raw := np_fromiter_feedback_loop frequency damping
                  (get_num_samples duration (sampling_rate self)) in
    let? centred := remove_dc raw in
    normalise centred
  else Raise AssertionError.

(** *** [_overlay] *)

(** [max(iterable)] of ints. *)
Definition py_max (l : list Z) : outcome Z :=
  match l with
  | [] => Raise ValueError
  | x :: l' => Ok (fold_left Z.max l' x)
  end.

(** [np.zeros(n, dtype=np.float64)] *)
Definition np_zeros (n : Z) : outcome (list A) :=
  if (n <? 0)%Z then Raise ValueError else Ok (replicate (Z.to_nat n) s_zero).

(** A slice bound as numpy resolves it on an axis of length [n]. *)
Definition slice_index (n i : Z) : Z :=
  if (i <? 0)%Z then Z.max (i + n) 0 else Z.min i n.

(** Broadcasting a one-dimensional operand to a slice of length [len]. *)
Definition broadcast_to (sound : list A) (len : nat) : outcome (list A) :=
  if decide (length sound = len) then Ok sound
  else match sound with
       | [x] => Ok (replicate len x)
       | _ => Raise ValueError
       end.

(** [samples[start:stop] += sound] *)
Definition iadd_slice (samples : list A) (start stop : Z) (sound : list A)
  : outcome (list A) :=
  let n := Z.of_nat (length samples) in
  let lo := Z.to_nat (slice_index n start) in
  let hi := Z.to_nat (slice_index n stop) in
  let len := (hi - lo)%nat in
  let? addend := broadcast_to sound len in
  Ok (take lo samples
      ++ zip_with s_add (take len (drop lo samples)) addend
      ++ drop (lo + len) samples).

(** [i * num_delay_samples + sound.size for i, sound in enumerate(sounds)],
    with the enumeration starting at [i]. *)
Fixpoint overlay_ends (num_delay_samples i : Z) (sounds : list (list A)) : list Z :=
  match sounds with
  | [] => []
  | sound :: rest =>
      (i * num_delay_samples + Z.of_nat (length sound))%Z
        :: overlay_ends num_delay_samples (i + 1) rest
  end.

(** Lines 74-76, the enumeration starting at [i]. *)
Fixpoint overlay_loop (num_delay_samples i : Z) (sounds : list (list A))
    (samples : list A) : outcome (list A) :=
  match sounds with
  | [] => Ok samples
  | sound :: rest =>
      let offset := (i * num_delay_samples)%Z in
      let? samples' :=
        iadd_slice samples offset (offset + Z.of_nat (length sound)) sound in
      overlay_loop num_delay_samples (i + 1) rest samples'
  end.

Definition _overlay (sounds : list (list A)) (delay : Time) : outcome (list A) :=
  let num_delay_samples := get_num_samples delay (sampling_rate self) in
  let? num_samples := py_max (overlay_ends num_delay_samples 0 sounds) in
  let? samples := np_zeros num_samples in
  overlay_loop num_delay_samples 0 sounds samples.

(** *** The [functools.cache] tables

    [@cache] keys an entry by the call's arguments ([self] is fixed here);
    only a call that returns is stored. The arrays handed out are the
    stored ones; nothing in this module writes to them afterwards
    ([_overlay] adds them into a fresh buffer).

    The calls modelled are the positional ones of the source:
    [_vibrate(frequency, duration, damping)] with its three arguments, as
    line 37 calls it, and [strum_strings(chord, velocity)] or
    [strum_strings(chord, velocity, vibration)], the [option] telling
    whether the third argument is there. [functools.cache] keys a call by
    its arguments as they are written, so a call of another shape (a default
    passed explicitly, an argument passed by keyword) has an entry of its
    own; it computes the same value and is not modelled.

    Keys are compared by value, with [==] on floats. A [dict] tests the
    identity of the objects before [==]: a key that holds a NaN is found
    again through the very same float object and through no other. Values
    have no identity here, and a key with a NaN is never found; the two
    differ in whether the body runs again, not in what it returns. *)

Definition vibrate_key : Type := A * Time * A.
Definition strum_key : Type := Chord * Velocity * option Time.

#[global] Instance Velocity_eq_dec : EqDecision Velocity.
Proof. solve_decision. Defined.

Definition vibrate_key_eqb (k1 k2 : vibrate_key) : bool :=
  let '(frequency1, duration1, damping1) := k1 in
  let '(frequency2, duration2, damping2) := k2 in
  s_eqb frequency1 frequency2
  && bool_decide (duration1 = duration2)
  && s_eqb damping1 damping2.

Definition strum_key_eqb (k1 k2 : strum_key) : bool := bool_decide (k1 = k2).

Record caches : Type := {
  vibrate_cache : list (vibrate_key * list A);
  strum_cache : list (strum_key * list A)
}.

Definition no_caches : caches := {| vibrate_cache := []; strum_cache := [] |}.

Definition set_vibrate_cache (t : list (vibrate_key * list A)) (c : caches) : caches :=
  {| vibrate_cache := t; strum_cache := strum_cache c |}.

Definition set_strum_cache (t : list (strum_key * list A)) (c : caches) : caches :=
  {| vibrate_cache := vibrate_cache c; strum_cache := t |}.

(** A computation that reads and extends the tables. An exception leaves
    the entries made before it in place. *)
Definition M (T : Type) : Type := caches -> outcome T * caches.

Definition mret {T : Type} (x : T) : M T := fun c => (Ok x, c).

Definition mlift {T : Type} (r : outcome T) : M T := fun c => (r, c).

Definition mbind {T U : Type} (m : M T) (k : T -> M U) : M U :=
  fun c =>
    match m c with
    | (Ok x, c') => k x c'
    | (Raise e, c') => (Raise e, c')
    | (Diverge, c') => (Diverge, c')
    end.

Notation "'let!' x ':=' m 'in' k" := (mbind m (fun x => k))
  (at level 10, x name, m at level 100, k at level 200).

Definition lookup_cache {K : Type} (eqb : K -> K -> bool) (key : K)
    (table : list (K * list A)) : option (list A) :=
  snd <$> find (fun entry => eqb key (fst entry)) table.

(** The wrapper [functools.cache] puts around [f]. *)
Definition cache {K : Type} (eqb : K -> K -> bool)
    (get : caches -> list (K * list A))
    (set : list (K * list A) -> caches -> caches)
    (f : K -> M (list A)) (key : K) : M (list A) :=
  fun c =>
    match lookup_cache eqb key (get c) with
    | Some w => (Ok w, c)
    | None =>
        match f key c with
        | (Ok w, c') => (Ok w, set ((key, w) :: get c') c')
        | (r, c') => (r, c')
        end
    end.

Definition _vibrate (frequency : A) (duration : Time) (damping : A) : M (list A) :=
  cache vibrate_key_eqb vibrate_cache set_vibrate_cache
    (fun '(frequency, duration, damping) =>
       mlift (_vibrate_wrapped frequency duration damping))
    (frequency, duration, damping).

(** *** [strum_strings] *)

(** Lines 36-39: [tuple(self._vibrate(...) for pitch in stroke(chord))]. *)
Fixpoint vibrate_each (pitches : list Pitch) (vibration : Time) : M (list (list A)) :=
  match pitches with
  | [] => mret []
  | pitch :: rest =>
      let! sound :=
        _vibrate (frequency pitch) vibration (damping (instrument self)) in
      let! sounds := vibrate_each rest vibration in
      mret (sound :: sounds)
  end.

(** The body of [strum_strings], without the [@cache] wrapper. *)
Definition strum_strings_wrapped (chord : Chord) (velocity : Velocity)
    (vibration_arg : option Time) : M (list A) :=
  let vibration :=
    match vibration_arg with
    | None => vibration (instrument self)
    | Some t => t
    end in
  let stroke :=
    match direction velocity with
    | UP => upstroke (instrument self)
    | DOWN => downstroke (instrument self)
    end in
  let! sounds := vibrate_each (stroke chord) vibration in
  mlift (_overlay sounds (delay velocity)).

Definition strum_strings (chord : Chord) (velocity : Velocity)
    (vibration_arg : option Time) : M (list A) :=
  cache strum_key_eqb strum_cache set_strum_cache
    (fun '(chord, velocity, vibration_arg) =>
       strum_strings_wrapped chord velocity vibration_arg)
    (chord, velocity, vibration_arg).

(** *** Reference definitions for the statements below

    These follow the wording of the specification, not the code; the
    theorems relate the two. *)

(** The recurrence of section 4.1 on a ring of [L] cells, at step [t]:
    emit cell [i = t mod L], overwrite it with
    [damping * (buffer[i] + buffer[(i+1) mod L])], advance. *)
Fixpoint karplus_strong (damping : A) (L : nat) (buffer : list A) (t n : nat)
  : list A :=
  match n with
  | O => []
  | S n' =>
      let i := t mod L in
      let emitted := nth i buffer s_zero in
      let neighbour := nth ((i + 1) mod L) buffer s_zero in
      emitted
        :: karplus_strong damping L
             (<[i := s_mul damping (s_add emitted neighbour)]> buffer) (S t) n'
  end.

(** The mix of section 4.2. One string that starts at [offset] adds its
    sample to the value [acc] held at output position [j], when it covers
    that position. *)
Definition mix_step (offset : Z) (sound : list A) (j : Z) (acc : A) : A :=
  if (offset <=? j)%Z && (j <? offset + Z.of_nat (length sound))%Z
  then s_add acc (nth (Z.to_nat (j - offset)) sound s_zero)
  else acc.

(** Position [j] of the mix: start from [acc] and let the strings add to it
    one after the other, string number [i] first, each at offset [i * d]. *)
Fixpoint mix_from (d i : Z) (sounds : list (list A)) (j : Z) (acc : A) : A :=
  match sounds with
  | [] => acc
  | sound :: rest => mix_from d (i + 1) rest j (mix_step (i * d) sound j acc)
  end.

(** What [strum_strings] computes when every [_vibrate] call is replaced by
    its body. *)
Fixpoint vibrate_each_wrapped (pitches : list Pitch) (vibration : Time)
  : outcome (list (list A)) :=
  match pitches with
  | [] => Ok []
  | pitch :: rest =>
      let? sound :=
        _vibrate_wrapped (frequency pitch) vibration (damping (instrument self)) in
      let? sounds := vibrate_each_wrapped rest vibration in
      Ok (sound :: sounds)
  end.

Definition stroke_of (velocity : Velocity) : Chord -> list Pitch :=
  match direction velocity with
  | UP => upstroke (instrument self)
  | DOWN => downstroke (instrument self)
  end.

Definition vibration_of (vibration_arg : option Time) : Time :=
  match vibration_arg with
  | None => vibration (instrument self)
  | Some t => t
  end.

Definition strum_strings_uncached (chord : Chord) (velocity : Velocity)
    (vibration_arg : option Time) : outcome (list A) :=
  let? sounds :=
    vibrate_each_wrapped (stroke_of velocity chord) (vibration_of vibration_arg) in
  _overlay sounds (delay velocity).

(** Every stored waveform is what the wrapped function returns on the key
    that finds it. *)
Definition caches_sound (c : caches) : Prop :=
  (forall frequency duration damping w,
      lookup_cache vibrate_key_eqb (frequency, duration, damping) (vibrate_cache c)
        = Some w ->
      _vibrate_wrapped frequency duration damping = Ok w)
  /\ (forall chord velocity vibration_arg w,
      lookup_cache strum_key_eqb (chord, velocity, vibration_arg) (strum_cache c)
        = Some w ->
      strum_strings_uncached chord velocity vibration_arg = Ok w).

(** The tables a process can hold: empty at start, then extended by calls. *)
Inductive reachable : caches -> Prop :=
  | reachable_start : reachable no_caches
  | reachable_vibrate c frequency duration damping :
      reachable c -> reachable (snd (_vibrate frequency duration damping c))
  | reachable_strum c chord velocity vibration_arg :
      reachable c -> reachable (snd (strum_strings chord velocity vibration_arg c)).

End Synth.

(** Laws of the scalar comparisons that make [==] on keys harmless: two keys
    that compare equal are the same value, or both are zeros (binary64 has
    two), and [_vibrate] treats all zeros alike. *)
Class ScalarLaws (A : Type) `{ScalarOps A} : Prop := {
  s_eqb_true : forall x y : A,
    s_eqb x y = true ->
    x = y \/ (s_eqb x s_zero = true /\ s_eqb y s_zero = true);
  s_ltb_zero : forall x : A, s_eqb x s_zero = true -> s_ltb s_zero x = false;
  s_rtruediv_zero : forall (n : Z) (x y : A),
    s_eqb x s_zero = true -> s_eqb y s_zero = true ->
    s_rtruediv n x = s_rtruediv n y
}.

(** ** A concrete synthesiser on binary64

    The collaborators are not part of [synthesis.py]; the instance below
    gives each the simplest behaviour its contract in the specification
    allows, so that the code above can be run. *)

Module Demo.

Import F64.

(** Modelled from the spec: [Time], of the missing module [temporal], is a
    duration in seconds, "convertible to an integer sample count at a given
    sampling rate ([samples = round(duration * sampling_rate)])". *)
Definition Time : Type := Qc.

Definition get_num_samples (duration : Time) (sampling_rate : Z) : Z :=
  Exact.round_Qc (duration * Q2Qc (inject_Z sampling_rate))%Qc.

(** Modelled from the spec: [Chord], of the missing module [chord], supplies
    a frequency per pitch; here it is the list of the frequencies of the
    strings that sound, lowest string first. *)
Definition Chord : Type := list float.

(** Modelled from the spec: the strokes of the missing module [instrument]
    yield "the ordered sequence of pitches to sound for this chord and
    direction"; a downstroke runs from the lowest string up, an upstroke the
    other way. *)
Definition low_to_high (chord : Chord) : list (Pitch (A:=float)) :=
  map Build_Pitch chord.

Definition high_to_low (chord : Chord) : list (Pitch (A:=float)) :=
  rev (low_to_high chord).

Definition float_of_Z (n : Z) : float := PrimFloat.of_uint63 (Uint63.of_Z n).

(** Modelled from the spec: [BurstGenerator], of the missing module [burst],
    is "deterministic given its inputs" and returns [num_samples] reals; this
    one scatters values over [-1, 1]. A negative size raises, as an array
    allocation does. *)
Definition noise (i : nat) : float :=
  (float_of_Z ((Z.of_nat i * 7919 + 13) mod 2001) / 1000 - 1)%float.

Definition burst (num_samples sampling_rate : Z) : outcome (list float) :=
  if (num_samples <? 0)%Z then Raise ValueError
  else Ok (map noise (seq 0 (Z.to_nat num_samples))).

(** Modelled from the spec: [remove_dc], of the missing module [processing],
    "subtract mean". *)
Definition remove_dc (samples : list float) : outcome (list float) :=
  let total := fold_left PrimFloat.add samples 0%float in
  let mean := (total / float_of_Z (Z.of_nat (length samples)))%float in
  Ok (map (fun x => x - mean)%float samples).

(** Modelled from the spec: [normalise], of the missing module [processing],
    peak normalisation to amplitude 1. *)
Definition normalise (samples : list float) : outcome (list float) :=
  let peak :=
    fold_left (fun m x => if (m <? abs x)%float then abs x else m) samples 0%float in
  Ok (map (fun x => x / peak)%float samples).

Definition guitar : PluckedStringInstrument (A:=float) (Time:=Time) (Chord:=Chord) := {|
  damping := 0.5%float;
  vibration := Q2Qc (1 # 100);
  upstroke := high_to_low;
  downstroke := low_to_high
|}.

(** [Synthesiser(instrument=guitar)] with [SAMPLING_RATE = 44100]. *)
Definition synthesiser : Synthesiser := {|
  instrument := guitar;
  burst_generator := burst;
  sampling_rate := 44100
|}.

Definition vibrate_wrapped : float -> Time -> float -> outcome (list float) :=
  _vibrate_wrapped get_num_samples remove_dc normalise synthesiser.

Definition vibrate : float -> Time -> float -> M (list float) :=
  _vibrate get_num_samples remove_dc normalise synthesiser.

Definition overlay : list (list float) -> Time -> outcome (list float) :=
  _overlay get_num_samples synthesiser.

Definition strum : Chord -> Velocity -> option Time -> M (list float) :=
  strum_strings get_num_samples remove_dc normalise synthesiser.

(** The burst behind a delay line of [L] cells. *)
Definition delay_line (L : nat) : list float := map noise (seq 0 L).

(** The waveform of one string of the guitar, ten milliseconds long; empty
    when the call returns none. *)
Definition string_sound (frequency : float) : list float :=
  match vibrate_wrapped frequency (vibration guitar) (damping guitar) with
  | Ok w => w
  | _ => []
  end.

End Demo.

(** ** The same synthesiser on exact rationals *)

Module ExactDemo.

Import Exact.

(** Modelled from the spec: a [BurstGenerator] that alternates [1] and [-1]. *)
Definition square (num_samples sampling_rate : Z) : outcome (list Qc) :=
  if (num_samples <? 0)%Z then Raise ValueError
  else Ok (map (fun i => if Nat.even i then Q2Qc 1 else Q2Qc (-1))
             (seq 0 (Z.to_nat num_samples))).

Definition guitar : PluckedStringInstrument (A:=Qc) (Time:=Demo.Time) (Chord:=list Qc) := {|
  damping := Q2Qc (1 # 2);
  vibration := Q2Qc (1 # 100);
  upstroke := fun chord => rev (map Build_Pitch chord);
  downstroke := fun chord => map Build_Pitch chord
|}.

Definition synthesiser : Synthesiser := {|
  instrument := guitar;
  burst_generator := square;
  sampling_rate := 44100
|}.

Definition overlay : list (list Qc) -> Demo.Time -> outcome (list Qc) :=
  _overlay Demo.get_num_samples synthesiser.

End ExactDemo.

(** ** Concrete waveforms for the further properties *)

Module Examples.

Import F64 Exact.

(** The raw output of the loop for 220 Hz, ten milliseconds long. *)
Definition raw_sound : list float :=
  match np_fromiter_feedback_loop Demo.synthesiser 220%float 0.5%float 441 with
  | Ok raw => raw
  | _ => []
  end.

Definition ascending : list float := [1; 2; 3; 4; 5; 6; 7; 8; 9; 10]%float.

Definition two_hundreds : list float := [100; 200]%float.

(** Five samples back. *)
Definition minus_five_samples : Demo.Time := Q2Qc (-5 # 44100).

(** Two waveforms twenty milliseconds apart, and the same with a third. *)
Definition two_mixed : list float :=
  match Demo.overlay [ascending; two_hundreds] (Q2Qc (2 # 100)) with
  | Ok out => out
  | _ => []
  end.

Definition three_mixed : list float :=
  match Demo.overlay ([ascending; two_hundreds] ++ [ascending]) (Q2Qc (2 # 100)) with
  | Ok out => out
  | _ => []
  end.

(** The strum of two strings, twenty milliseconds apart. *)
Definition two_strings : Demo.Chord := [220; 330]%float.

Definition down_stroke : Velocity (Time:=Demo.Time) :=
  {| direction := DOWN; delay := Q2Qc (2 # 100) |}.

Definition strummed : list float :=
  match fst (Demo.strum two_strings down_stroke None no_caches) with
  | Ok w => w
  | _ => []
  end.

End Examples.

(** * Properties *)

Import F64 Exact.

(** ** binary64 comparisons

    What the primitive comparisons and the multiplication do, read off their
    specification on [spec_float]. *)


Lemma SFcompare_antisym (x y : spec_float) :
  SFcompare y x = option_map CompOpp (SFcompare x y).
Proof.
  destruct x as [sx|sx| |sx mx ex], y as [sy|sy| |sy my ey];
    try (destruct sx); try (destruct sy); try reflexivity.
  all: cbn; rewrite (Z.compare_antisym ex ey); destruct (ex ?= ey)%Z; cbn;
    try reflexivity.
  all: rewrite (Pos.compare_cont_antisym mx my Eq); reflexivity.
Qed.

Lemma f64_leb_ltb_false (x y : float) :
  (x <=? y)%float = true -> (y <? x)%float = false.
Proof.
  rewrite FloatAxioms.leb_spec, FloatAxioms.ltb_spec. unfold SFleb, SFltb.
  rewrite (SFcompare_antisym (Prim2SF x) (Prim2SF y)).
  by destruct (SFcompare (Prim2SF x) (Prim2SF y)) as [[]|].
Qed.

Lemma f64_ltb_leb_false (x y : float) :
  (x <? y)%float = true -> (y <=? x)%float = false.
Proof.
  rewrite FloatAxioms.leb_spec, FloatAxioms.ltb_spec. unfold SFleb, SFltb.
  rewrite (SFcompare_antisym (Prim2SF x) (Prim2SF y)).
  by destruct (SFcompare (Prim2SF x) (Prim2SF y)) as [[]|].
Qed.

Lemma SFeqb_true (x y : spec_float) :
  SFeqb x y = true ->
  x = y \/ ((exists s, x = S754_zero s) /\ (exists s, y = S754_zero s)).
Proof.
  unfold SFeqb.
  destruct x as [sx|sx| |sx mx ex], y as [sy|sy| |sy my ey];
    try (destruct sx); try (destruct sy); try discriminate;
    try (left; reflexivity); try (right; split; eexists; reflexivity).
  all: cbn; destruct (ex ?= ey)%Z eqn:E; try discriminate;
    apply Z.compare_eq in E; subst ey;
    destruct (Pos.compare_cont Eq mx my) eqn:E'; try discriminate;
    apply (Pos.compare_eq mx my) in E'; subst my; intros _; left; reflexivity.
Qed.

Lemma f64_eqb_zero (x : float) :
  (x =? 0)%float = true <-> exists s, Prim2SF x = S754_zero s.
Proof.
  rewrite FloatAxioms.eqb_spec. change (Prim2SF 0) with (S754_zero false).
  split.
  - intros Hx. destruct (SFeqb_true _ _ Hx) as [->|[Hs _]]; [by eexists | exact Hs].
  - intros [s ->]. reflexivity.
Qed.

Lemma f64_eqb_true (x y : float) :
  (x =? y)%float = true ->
  x = y \/ ((x =? 0)%float = true /\ (y =? 0)%float = true).
Proof.
  intros Hxy. rewrite FloatAxioms.eqb_spec in Hxy.
  destruct (SFeqb_true _ _ Hxy) as [Heq|[Hx Hy]].
  - left. by apply Prim2SF_inj.
  - right. by rewrite !f64_eqb_zero.
Qed.

Lemma f64_ltb_zero (x : float) : (x =? 0)%float = true -> (0 <? x)%float = false.
Proof.
  rewrite f64_eqb_zero. intros [s Hs]. rewrite FloatAxioms.ltb_spec, Hs.
  change (Prim2SF 0) with (S754_zero false). reflexivity.
Qed.

Lemma f64_rtruediv_zero (n : Z) (x y : float) :
  (x =? 0)%float = true -> (y =? 0)%float = true -> F64.rtruediv n x = F64.rtruediv n y.
Proof. intros Hx Hy. unfold F64.rtruediv. by rewrite Hx, Hy. Qed.

Lemma f64_mul_comm (x y : float) : (x * y)%float = (y * x)%float.
Proof.
  apply Prim2SF_inj. rewrite !FloatAxioms.mul_spec. unfold SF64mul, SFmul.
  destruct (Prim2SF x) as [sx|sx| |sx mx ex], (Prim2SF y) as [sy|sy| |sy my ey];
    try reflexivity; try (by rewrite xorb_comm).
  by rewrite xorb_comm, Pos.mul_comm, Z.add_comm.
Qed.

#[global] Instance f64_scalar_laws : ScalarLaws float.
Proof.
  split.
  - exact f64_eqb_true.
  - exact f64_ltb_zero.
  - exact f64_rtruediv_zero.
Qed.


(** ** The feedback loop against the recurrence of the specification *)

Section FeedbackLoopFacts.
Context {A : Type} `{SampleOps A}.

Lemma cycle_next_mod (L t : nat) : 0 < L -> cycle_next L (t mod L) = S t mod L.
Proof.
  intros HL. unfold cycle_next.
  assert (Hlt : t mod L < L) by (apply Nat.mod_upper_bound; lia).
  replace (S t) with (1 + t) by lia.
  rewrite (Nat.Div0.add_mod 1 t L).
  destruct (decide (S (t mod L) < L)) as [Hs|Hs].
  - destruct (decide (L = 1)) as [->|HL1]; [lia|].
    rewrite (Nat.mod_small 1 L) by lia.
    rewrite (Nat.mod_small (1 + t mod L) L); lia.
  - assert (HS : S (t mod L) = L) by lia.
    destruct (decide (L = 1)) as [->|HL1].
    + reflexivity.
    + rewrite (Nat.mod_small 1 L) by lia. simpl. rewrite HS.
      symmetry. apply Nat.Div0.mod_same.
Qed.

Lemma feedback_loop_from_length (damping : A) (n : nat) :
  forall (buffer : list A) (i : nat),
    length (fst (feedback_loop_from damping buffer i n)) = n.
Proof.
  induction n as [|n IH]; intros buffer i; [reflexivity|].
  cbn [feedback_loop_from]. unfold loop_body.
  specialize (IH (<[i:=s_mul (s_add (nth i buffer s_zero)
                        (nth ((i + 1) mod length buffer) buffer s_zero)) damping]> buffer)
                 (cycle_next (length buffer) i)).
  destruct (feedback_loop_from _ _ _ n) as [ys st]. cbn in *. by rewrite IH.
Qed.

(** With a commutative product the loop yields what the recurrence of the
    specification emits, index [t mod L] at step [t]. *)
Lemma feedback_loop_from_spec (damping : A) (L n t : nat) (buffer : list A) :
  (forall x y : A, s_mul x y = s_mul y x) ->
  0 < L -> length buffer = L ->
  fst (feedback_loop_from damping buffer (t mod L) n)
  = karplus_strong damping L buffer t n.
Proof.
  intros s_mul_comm HL. revert t buffer.
  induction n as [|n IH]; intros t buffer Hlen; [reflexivity|].
  cbn [feedback_loop_from karplus_strong]. unfold loop_body.
  rewrite Hlen.
  destruct (feedback_loop_from _ _ _ n) as [ys st] eqn:E.
  cbn [fst]. f_equal.
  rewrite <- IH by (rewrite length_insert; exact Hlen).
  rewrite cycle_next_mod in E by exact HL.
  rewrite (s_mul_comm damping). rewrite E. reflexivity.
Qed.
End FeedbackLoopFacts.

(** ** The mixer: slice additions against the pointwise mix *)

Section OverlayFacts.
Context {A : Type} `{SampleOps A}.

Lemma slice_index_in_range (n i : Z) : (0 <= i <= n)%Z -> slice_index n i = i.
Proof. intros Hi. unfold slice_index. destruct (Z.ltb_spec i 0); lia. Qed.

Lemma iadd_slice_in_range (samples sound : list A) (offset : Z) :
  (0 <= offset)%Z ->
  (offset + Z.of_nat (length sound) <= Z.of_nat (length samples))%Z ->
  iadd_slice samples offset (offset + Z.of_nat (length sound)) sound
  = Ok (imap (fun j x => mix_step offset sound (Z.of_nat j) x) samples).
Proof.
  intros Hoff Hend. unfold iadd_slice.
  rewrite !slice_index_in_range by lia.
  set (lo := Z.to_nat offset).
  replace (Z.to_nat (offset + Z.of_nat (length sound)) - lo)%nat
    with (length sound) by lia.
  unfold broadcast_to. rewrite decide_True by reflexivity. cbn [obind].
  f_equal. apply list_eq. intros j. rewrite list_lookup_imap.
  assert (Hlo : (lo + length sound <= length samples)%nat) by lia.
  unfold mix_step.
  destruct (decide (j < lo)%nat) as [Hj|Hj].
  - rewrite lookup_app_l by (rewrite length_take; lia).
    rewrite lookup_take, decide_True by lia.
    destruct (Z.leb_spec offset (Z.of_nat j)); [lia|].
    cbn [andb]. by destruct (samples !! j).
  - rewrite lookup_app_r by (rewrite length_take; lia).
    rewrite length_take, Nat.min_l by lia.
    destruct (decide (j < lo + length sound)%nat) as [Hj'|Hj'].
    + rewrite lookup_app_l
        by (rewrite length_zip_with, length_take, length_drop; lia).
      rewrite lookup_zip_with, lookup_take, decide_True, lookup_drop by lia.
      replace (lo + (j - lo))%nat with j by lia.
      destruct (Z.leb_spec offset (Z.of_nat j)); [|lia].
      destruct (Z.ltb_spec (Z.of_nat j) (offset + Z.of_nat (length sound))); [|lia].
      cbn [andb].
      destruct (lookup_lt_is_Some_2 samples j) as [x Hx]; [lia|].
      destruct (lookup_lt_is_Some_2 sound (j - lo)) as [y Hy]; [lia|].
      rewrite Hx, Hy. cbn.
      replace (Z.to_nat (Z.of_nat j - offset)) with (j - lo)%nat by lia.
      by rewrite (nth_lookup_Some _ _ _ _ Hy).
    + rewrite lookup_app_r
        by (rewrite length_zip_with, length_take, length_drop; lia).
      rewrite length_zip_with, length_take, length_drop, lookup_drop.
      replace (lo + length sound + (j - lo - (length sound `min` (length samples - lo)) `min` length sound))%nat
        with j by lia.
      destruct (Z.ltb_spec (Z.of_nat j) (offset + Z.of_nat (length sound))); [lia|].
      rewrite andb_false_r. by destruct (samples !! j).
Qed.

Lemma overlay_loop_in_range (d : Z) (sounds : list (list A)) :
  (0 <= d)%Z ->
  forall (i : Z) (samples : list A),
    (0 <= i)%Z ->
    Forall (fun e => e <= Z.of_nat (length samples))%Z (overlay_ends d i sounds) ->
    overlay_loop d i sounds samples
    = Ok (imap (fun j x => mix_from d i sounds (Z.of_nat j) x) samples).
Proof.
  intros Hd. induction sounds as [|sound rest IH]; intros i samples Hi Hends.
  - cbn. f_equal. apply list_eq. intros j. rewrite list_lookup_imap.
    by destruct (samples !! j).
  - cbn [overlay_loop overlay_ends mix_from] in *.
    apply Forall_cons in Hends as [Hend Hends].
    rewrite iadd_slice_in_range by nia. cbn [obind].
    rewrite IH; [| lia | by rewrite length_imap].
    f_equal. apply list_eq. intros j. rewrite !list_lookup_imap.
    by destruct (samples !! j).
Qed.

Lemma fold_left_max_ge (l : list Z) (x : Z) :
  (x <= fold_left Z.max l x)%Z /\ Forall (fun e => e <= fold_left Z.max l x)%Z l.
Proof.
  revert x. induction l as [|y l IH]; intros x; cbn.
  - split; [lia | constructor].
  - destruct (IH (Z.max x y)) as [H1 H2]. split; [lia|].
    constructor; [lia | exact H2].
Qed.

Lemma fold_left_max_in (l : list Z) (x : Z) : fold_left Z.max l x ∈ x :: l.
Proof.
  revert x. induction l as [|y l IH]; intros x; cbn.
  - left.
  - specialize (IH (Z.max x y)).
    apply elem_of_cons in IH as [IH|IH].
    + rewrite IH. destruct (Z.max_spec x y) as [[_ ->]|[_ ->]].
      * right. left.
      * left.
    + right. right. exact IH.
Qed.

Lemma overlay_ends_lookup (d : Z) (sounds : list (list A)) :
  forall (i : Z) (k : nat),
    overlay_ends d i sounds !! k
    = (fun sound => (i + Z.of_nat k) * d + Z.of_nat (length sound))%Z <$> sounds !! k.
Proof.
  induction sounds as [|sound rest IH]; intros i k; [reflexivity|].
  destruct k as [|k]; cbn.
  - do 2 f_equal. lia.
  - rewrite IH. destruct (rest !! k); cbn; [|reflexivity]. do 2 f_equal. lia.
Qed.

End OverlayFacts.

Section OverlayTheorems.
Context {A : Type} `{SampleOps A} {Time Chord : Type}.
Variable get_num_samples : Time -> Z -> Z.
Variable self : Synthesiser (A:=A) (Time:=Time) (Chord:=Chord).

Lemma py_max_spec (l : list Z) :
  l <> [] ->
  exists m, py_max l = Ok m /\ m ∈ l /\ Forall (fun e => e <= m)%Z l.
Proof.
  destruct l as [|x l]; [done|]. intros _. exists (fold_left Z.max l x).
  split; [reflexivity|]. split; [apply fold_left_max_in|].
  destruct (fold_left_max_ge l x). by constructor.
Qed.

Lemma overlay_in_range (sounds : list (list A)) (delay : Time) :
  sounds <> [] ->
  (0 <= get_num_samples delay (sampling_rate self))%Z ->
  exists n : nat,
    py_max (overlay_ends (get_num_samples delay (sampling_rate self)) 0 sounds)
      = Ok (Z.of_nat n)
    /\ _overlay get_num_samples self sounds delay
       = Ok (imap (fun j _ =>
                     mix_from (get_num_samples delay (sampling_rate self)) 0 sounds
                       (Z.of_nat j) s_zero)
               (replicate n s_zero)).
Proof.
  intros Hne Hd. unfold _overlay.
  set (d := get_num_samples delay (sampling_rate self)) in *.
  destruct (py_max_spec (overlay_ends d 0 sounds)) as (m & Hm & Hin & Hub).
  { destruct sounds; [done|]. discriminate. }
  assert (Hm0 : (0 <= m)%Z).
  { destruct sounds as [|sound rest]; [done|]. cbn in Hub.
    apply Forall_cons in Hub as [Hub _]. lia. }
  exists (Z.to_nat m). rewrite Z2Nat.id by exact Hm0.
  split; [exact Hm|]. rewrite Hm. cbn [obind]. unfold np_zeros.
  destruct (Z.ltb_spec m 0); [lia|]. cbn [obind].
  rewrite overlay_loop_in_range; [| exact Hd | lia |].
  - f_equal. apply list_eq. intros j. rewrite !list_lookup_imap.
    destruct (replicate (Z.to_nat m) s_zero !! j) as [x|] eqn:E; [|reflexivity].
    apply lookup_replicate in E as [-> _]. reflexivity.
  - rewrite length_replicate, Z2Nat.id by exact Hm0. exact Hub.
Qed.

(** C2, amended. For a non-empty sequence [sounds] and a delay of [d >= 0]
    samples, [_overlay] returns a waveform [out] whose length is the true maximum
    over [i] of [i * d + len(sounds[i])] (an upper bound of all of them
    that one of them attains, so no string is truncated), and every
    sample of [out] is what [mix_from] computes: zero, to which the strings
    add, in order, their sample at offset [i * d]. *)
Theorem overlay_length_and_mix (sounds : list (list A)) (delay : Time) :
  let d := get_num_samples delay (sampling_rate self) in
  sounds <> [] ->
  (0 <= d)%Z ->
  exists out,
    _overlay get_num_samples self sounds delay = Ok out
    /\ (forall (i : nat) sound,
          sounds !! i = Some sound ->
          (Z.of_nat i * d + Z.of_nat (length sound) <= Z.of_nat (length out))%Z)
    /\ (exists (i : nat) sound,
          sounds !! i = Some sound
          /\ Z.of_nat (length out) = (Z.of_nat i * d + Z.of_nat (length sound))%Z)
    /\ (forall j : nat,
          (j < length out)%nat ->
          out !! j = Some (mix_from d 0 sounds (Z.of_nat j) s_zero)).
Proof.
  intros d Hne Hd.
  destruct (overlay_in_range sounds delay Hne Hd) as (n & Hmax & Hout).
  fold d in Hmax, Hout.
  destruct (py_max_spec (overlay_ends d 0 sounds)) as (m & Hm & Hin & Hub).
  { destruct sounds; [done|]. discriminate. }
  rewrite Hmax in Hm. injection Hm as <-.
  eexists. split; [exact Hout|].
  rewrite length_imap, length_replicate.
  split; [|split].
  - intros i sound Hi.
    rewrite Forall_lookup in Hub. apply (Hub i).
    rewrite overlay_ends_lookup, Hi. cbn; f_equal; lia.
  - apply list_elem_of_lookup in Hin as [i Hi].
    rewrite overlay_ends_lookup in Hi.
    destruct (sounds !! i) as [sound|] eqn:E; [|discriminate].
    cbn in Hi. injection Hi as Hi. exists i, sound. split; [exact E|]. lia.
  - intros j Hj. rewrite list_lookup_imap.
    destruct (lookup_lt_is_Some_2 (replicate n (s_zero (A:=A))) j) as [x ->];
      [by rewrite length_replicate|].
    reflexivity.
Qed.

Section AssociativeCommutative.
Hypothesis s_add_assoc : forall x y z : A, s_add x (s_add y z) = s_add (s_add x y) z.
Hypothesis s_add_comm : forall x y : A, s_add x y = s_add y x.


Lemma mix_from_simultaneous (sounds : list (list A)) (j : Z) :
  forall (i i' : Z) (acc : A),
    mix_from 0 i sounds j acc = mix_from 0 i' sounds j acc.
Proof.
  induction sounds as [|sound rest IH]; intros i i' acc; [reflexivity|].
  cbn [mix_from]. rewrite !Z.mul_0_r. apply IH.
Qed.


Lemma overlay_ends_simultaneous (sounds : list (list A)) :
  forall i : Z,
    overlay_ends 0 i sounds = (fun sound => Z.of_nat (length sound)) <$> sounds.
Proof.
  induction sounds as [|sound rest IH]; intros i; [reflexivity|].
  cbn. rewrite IH. f_equal. lia.
Qed.

End AssociativeCommutative.

Lemma overlay_simultaneous_size (sounds sounds' : list (list A)) (n n' : nat) :
  sounds ≡ₚ sounds' ->
  py_max (overlay_ends 0 0 sounds) = Ok (Z.of_nat n) ->
  py_max (overlay_ends 0 0 sounds') = Ok (Z.of_nat n') ->
  n = n'.
Proof.
  intros Hperm Hmax Hmax'.
  assert (Hne : sounds <> []) by (intros ->; discriminate).
  assert (Hne' : sounds' <> []) by (intros ->; discriminate).
  destruct (py_max_spec (overlay_ends 0 0 sounds)) as (m & Hm & Hin & Hub).
  { destruct sounds; [done|]. discriminate. }
  destruct (py_max_spec (overlay_ends 0 0 sounds')) as (m' & Hm' & Hin' & Hub').
  { destruct sounds'; [done|]. discriminate. }
  rewrite Hmax in Hm. injection Hm as <-.
  rewrite Hmax' in Hm'. injection Hm' as <-.
  rewrite !overlay_ends_simultaneous in *.
  rewrite Forall_forall in Hub, Hub'.
  rewrite Hperm in Hin. apply Hub' in Hin.
  rewrite <- Hperm in Hin'. apply Hub in Hin'. lia.
Qed.


End OverlayTheorems.

(** ** The caches are transparent

    From tables that are sound, a cached call returns what the wrapped
    function returns, and leaves the tables sound. *)

Section CacheFacts.
Context {A : Type} `{ScalarLaws A}.
Context {Time : Type} `{EqDecision Time}.
Context {Chord : Type} `{EqDecision Chord}.
Variable get_num_samples : Time -> Z -> Z.
Variables remove_dc normalise : list A -> outcome (list A).
Variable self : Synthesiser (A:=A) (Time:=Time) (Chord:=Chord).

Local Abbreviation vibrate_wrapped := (_vibrate_wrapped get_num_samples remove_dc normalise self).
Local Abbreviation vibrate := (_vibrate get_num_samples remove_dc normalise self).
Local Abbreviation sound_caches := (caches_sound get_num_samples remove_dc normalise self).

Lemma lookup_cache_cons {K : Type} (eqb : K -> K -> bool) (key key0 : K)
    (w0 : list A) (table : list (K * list A)) :
  lookup_cache eqb key ((key0, w0) :: table)
  = if eqb key key0 then Some w0 else lookup_cache eqb key table.
Proof. unfold lookup_cache. cbn. by destruct (eqb key key0). Qed.

Lemma damping_ok_zero (damping : A) :
  s_eqb damping s_zero = true -> damping_ok damping = false.
Proof. intros Hz. unfold damping_ok. by rewrite (s_ltb_zero _ Hz). Qed.

Lemma vibrate_wrapped_key (f1 f2 : A) (d1 d2 : Time) (k1 k2 : A) :
  vibrate_key_eqb (f1, d1, k1) (f2, d2, k2) = true ->
  vibrate_wrapped f1 d1 k1 = vibrate_wrapped f2 d2 k2.
Proof.
  unfold vibrate_key_eqb. rewrite !andb_true_iff, bool_decide_eq_true.
  intros [[Hf ->] Hk]. unfold _vibrate_wrapped.
  destruct (s_eqb_true _ _ Hk) as [->|[Hk1 Hk2]].
  2: { by rewrite (damping_ok_zero _ Hk1), (damping_ok_zero _ Hk2). }
  destruct (s_eqb_true _ _ Hf) as [->|[Hf1 Hf2]]; [reflexivity|].
  unfold np_fromiter_feedback_loop, feedback_loop_buffer.
  by rewrite (s_rtruediv_zero _ _ _ Hf1 Hf2).
Qed.

Lemma caches_sound_start : sound_caches no_caches.
Proof. split; intros; discriminate. Qed.

Lemma vibrate_transparent (frequency : A) (duration : Time) (damping : A)
    (c : caches (A:=A) (Time:=Time) (Chord:=Chord)) :
  sound_caches c ->
  fst (vibrate frequency duration damping c) = vibrate_wrapped frequency duration damping
  /\ sound_caches (snd (vibrate frequency duration damping c)).
Proof.
  intros [Hv Hs]. unfold _vibrate, cache.
  destruct (lookup_cache _ _ (vibrate_cache c)) as [w|] eqn:Hhit.
  - split; [symmetry; by apply Hv | by split].
  - unfold mlift.
    destruct (vibrate_wrapped frequency duration damping) as [w| |] eqn:Hw;
      cbn [fst snd]; (split; [reflexivity|]); try by split.
    split; [|exact Hs].
    intros f' d' k' w'. cbn [vibrate_cache set_vibrate_cache].
    rewrite lookup_cache_cons.
    destruct (vibrate_key_eqb (f', d', k') (frequency, duration, damping)) eqn:Hkey.
    + intros [= <-]. by rewrite (vibrate_wrapped_key _ _ _ _ _ _ Hkey).
    + apply Hv.
Qed.


Local Abbreviation strum := (strum_strings get_num_samples remove_dc normalise self).
Local Abbreviation strum_wrapped := (strum_strings_wrapped get_num_samples remove_dc normalise self).
Local Abbreviation strum_uncached := (strum_strings_uncached get_num_samples remove_dc normalise self).

Lemma vibrate_each_transparent (pitches : list Pitch) (vibration : Time) :
  forall c : caches (A:=A) (Time:=Time) (Chord:=Chord),
    sound_caches c ->
    fst (vibrate_each get_num_samples remove_dc normalise self pitches vibration c)
    = vibrate_each_wrapped get_num_samples remove_dc normalise self pitches vibration
    /\ sound_caches
         (snd (vibrate_each get_num_samples remove_dc normalise self pitches vibration c)).
Proof.
  induction pitches as [|pitch rest IH]; intros c Hc; [by split|].
  cbn [vibrate_each vibrate_each_wrapped]. unfold mbind.
  destruct (vibrate_transparent (frequency pitch) vibration
              (damping (instrument self)) c Hc) as [Hr Hc1].
  destruct (vibrate (frequency pitch) vibration (damping (instrument self)) c)
    as [r c1]. cbn [fst snd] in Hr, Hc1. rewrite <- Hr.
  destruct r as [w| |]; cbn [obind]; try by split.
  destruct (IH c1 Hc1) as [Hr2 Hc2].
  destruct (vibrate_each _ _ _ _ rest vibration c1) as [r2 c2].
  cbn [fst snd] in Hr2, Hc2. rewrite <- Hr2.
  destruct r2 as [ws| |]; cbn [obind]; by split.
Qed.

Lemma strum_wrapped_transparent (chord : Chord) (velocity : Velocity)
    (vibration_arg : option Time) (c : caches (A:=A) (Time:=Time) (Chord:=Chord)) :
  sound_caches c ->
  fst (strum_wrapped chord velocity vibration_arg c)
  = strum_uncached chord velocity vibration_arg
  /\ sound_caches (snd (strum_wrapped chord velocity vibration_arg c)).
Proof.
  intros Hc. unfold strum_strings_wrapped, strum_strings_uncached, mbind, mlift.
  fold (vibration_of self vibration_arg). fold (stroke_of self velocity).
  destruct (vibrate_each_transparent (stroke_of self velocity chord)
              (vibration_of self vibration_arg) c Hc) as [Hr Hc1].
  destruct (vibrate_each _ _ _ _ _ _ c) as [r c1]. cbn [fst snd] in Hr, Hc1.
  rewrite <- Hr. destruct r; by split.
Qed.

Lemma strum_transparent (chord : Chord) (velocity : Velocity)
    (vibration_arg : option Time) (c : caches (A:=A) (Time:=Time) (Chord:=Chord)) :
  sound_caches c ->
  fst (strum chord velocity vibration_arg c)
  = strum_uncached chord velocity vibration_arg
  /\ sound_caches (snd (strum chord velocity vibration_arg c)).
Proof.
  intros Hc. unfold strum_strings, cache.
  destruct (lookup_cache _ _ (strum_cache c)) as [w|] eqn:Hhit.
  - destruct Hc as [Hv Hs]. split; [symmetry; by apply Hs | by split].
  - destruct (strum_wrapped_transparent chord velocity vibration_arg c Hc)
      as [Hr Hc1].
    destruct (strum_wrapped chord velocity vibration_arg c) as [r c1].
    cbn [fst snd] in Hr, Hc1.
    destruct r as [w| |]; cbn [fst snd]; (split; [exact Hr|]); try exact Hc1.
    destruct Hc1 as [Hv Hs]. split; [exact Hv|].
    intros ch' v' a' w'. cbn [strum_cache set_strum_cache].
    rewrite lookup_cache_cons. unfold strum_key_eqb at 1.
    case_bool_decide as Hkey.
    + injection Hkey as -> -> ->. intros [= <-]. by symmetry.
    + apply Hs.
Qed.

Lemma reachable_sound (c : caches (A:=A) (Time:=Time) (Chord:=Chord)) :
  reachable get_num_samples remove_dc normalise self c -> sound_caches c.
Proof.
  induction 1 as [|c f d k _ IH|c ch v a _ IH].
  - apply caches_sound_start.
  - by apply vibrate_transparent.
  - by apply strum_transparent.
Qed.

End CacheFacts.

(** ** [_vibrate] *)

Section VibrateFacts.
Context {A : Type} `{ScalarLaws A}.
Context {Time : Type} `{EqDecision Time}.
Context {Chord : Type} `{EqDecision Chord}.
Variable get_num_samples : Time -> Z -> Z.
Variables remove_dc normalise : list A -> outcome (list A).
Variable self : Synthesiser (A:=A) (Time:=Time) (Chord:=Chord).

Local Abbreviation vibrate_wrapped := (_vibrate_wrapped get_num_samples remove_dc normalise self).
Local Abbreviation vibrate := (_vibrate get_num_samples remove_dc normalise self).
Local Abbreviation sound_caches := (caches_sound get_num_samples remove_dc normalise self).

Lemma np_fromiter_positive (frequency damping : A) (count : Z) (buffer : list A) :
  feedback_loop_buffer self frequency = Ok buffer ->
  buffer <> [] ->
  (0 < count)%Z ->
  np_fromiter_feedback_loop self frequency damping count
  = Ok (fst (feedback_loop_from damping buffer 0 (Z.to_nat count))).
Proof.
  intros Hbuf Hne Hcount. unfold np_fromiter_feedback_loop.
  rewrite (proj2 (Z.ltb_lt 0 count) Hcount), Hbuf. cbn [orb obind].
  by destruct buffer.
Qed.

(** C1. [_vibrate] builds its delay line from the burst generator, called
    with [num_samples = L = round(sampling_rate / frequency)]; when the
    generator returns the [L] samples it was asked for and the product of
    samples commutes (as on binary64), the samples pulled from the loop are
    those of the recurrence [karplus_strong]: step [t] emits the cell
    [i = t mod L], overwrites it with
    [damping * (buffer[i] + buffer[(i+1) mod L])], and moves on. With a
    valid damping, [_vibrate] post-processes exactly that output. *)
Theorem vibrate_delay_line_and_recurrence
    (frequency damping : A) (L : Z) (buffer : list A) :
  (forall x y : A, s_mul x y = s_mul y x) ->
  (let? quotient := s_rtruediv (sampling_rate self) frequency in s_round quotient)
    = Ok L ->
  burst_generator self L (sampling_rate self) = Ok buffer ->
  Z.of_nat (length buffer) = L ->
  feedback_loop_buffer self frequency = Ok buffer
  /\ (forall count : Z,
        (0 < L)%Z -> (0 < count)%Z ->
        np_fromiter_feedback_loop self frequency damping count
        = Ok (karplus_strong damping (Z.to_nat L) buffer 0 (Z.to_nat count)))
  /\ (forall duration : Time,
        (0 < L)%Z -> (0 < get_num_samples duration (sampling_rate self))%Z ->
        damping_ok damping = true ->
        vibrate_wrapped frequency duration damping
        = let? centred :=
            remove_dc
              (karplus_strong damping (Z.to_nat L) buffer 0
                 (Z.to_nat (get_num_samples duration (sampling_rate self)))) in
          normalise centred).
Proof.
  intros Hcomm HL Hburst Hsize.
  assert (Hbuf : feedback_loop_buffer self frequency = Ok buffer).
  { unfold feedback_loop_buffer.
    destruct (s_rtruediv (sampling_rate self) frequency) as [q| |];
      try discriminate. cbn [obind] in *. rewrite HL. exact Hburst. }
  assert (Hraw : forall count : Z,
    (0 < L)%Z -> (0 < count)%Z ->
    np_fromiter_feedback_loop self frequency damping count
    = Ok (karplus_strong damping (Z.to_nat L) buffer 0 (Z.to_nat count))).
  { intros count HLpos Hcount.
    rewrite (np_fromiter_positive _ _ _ buffer Hbuf); [| |exact Hcount].
    - f_equal.
      rewrite <- (feedback_loop_from_spec damping (Z.to_nat L)
                    (Z.to_nat count) 0 buffer Hcomm) by lia.
      by rewrite Nat.Div0.mod_0_l.
    - intros ->. cbn in Hsize. lia. }
  split; [exact Hbuf|]. split; [exact Hraw|].
  intros duration HLpos HN Hk. unfold _vibrate_wrapped.
  by rewrite Hk, (Hraw _ HLpos HN).
Qed.

(** C4, amended. For a frequency whose delay line has [L >= 1] cells, a
    burst generator that returns the [L] samples asked for, a positive
    sample count [N], a damping in (0, 0.5] and post-processing steps that
    return an array of the length they are given, [_vibrate] returns a
    waveform [w] of length exactly [N], and [w] is
    [normalise(remove_dc(raw))] where [raw] is the output of the loop: DC
    removal first, normalisation second, once each. *)
Theorem vibrate_length_and_postprocessing
    (frequency : A) (duration : Time) (damping : A) (L : Z) (buffer : list A) :
  let N := get_num_samples duration (sampling_rate self) in
  damping_ok damping = true ->
  (let? quotient := s_rtruediv (sampling_rate self) frequency in s_round quotient)
    = Ok L ->
  (1 <= L)%Z ->
  burst_generator self L (sampling_rate self) = Ok buffer ->
  Z.of_nat (length buffer) = L ->
  (0 < N)%Z ->
  (forall x, x <> [] -> exists y, remove_dc x = Ok y /\ length y = length x) ->
  (forall x, x <> [] -> exists y, normalise x = Ok y /\ length y = length x) ->
  exists raw centred w,
    np_fromiter_feedback_loop self frequency damping N = Ok raw
    /\ raw = fst (feedback_loop_from damping buffer 0 (Z.to_nat N))
    /\ remove_dc raw = Ok centred
    /\ normalise centred = Ok w
    /\ vibrate_wrapped frequency duration damping = Ok w
    /\ Z.of_nat (length w) = N
    /\ (forall c : caches (A:=A) (Time:=Time) (Chord:=Chord),
          sound_caches c -> fst (vibrate frequency duration damping c) = Ok w).
Proof.
  intros N Hk HL HL1 Hburst Hsize HN Hdc Hnorm.
  assert (Hbuf : feedback_loop_buffer self frequency = Ok buffer).
  { unfold feedback_loop_buffer.
    destruct (s_rtruediv (sampling_rate self) frequency) as [q| |];
      try discriminate. cbn [obind] in *. rewrite HL. exact Hburst. }
  assert (Hne : buffer <> []) by (intros ->; cbn in Hsize; lia).
  pose proof (np_fromiter_positive frequency damping N buffer Hbuf Hne HN) as Hraw.
  set (raw := fst (feedback_loop_from damping buffer 0 (Z.to_nat N))) in *.
  assert (Hlen : length raw = Z.to_nat N) by apply feedback_loop_from_length.
  assert (Hraw_ne : raw <> []) by (intros E; rewrite E in Hlen; cbn in Hlen; lia).
  destruct (Hdc raw Hraw_ne) as (centred & Hc & Hclen).
  assert (Hc_ne : centred <> []).
  { intros E. rewrite E in Hclen. cbn in Hclen. lia. }
  destruct (Hnorm centred Hc_ne) as (w & Hw & Hwlen).
  assert (Hres : vibrate_wrapped frequency duration damping = Ok w).
  { unfold _vibrate_wrapped. fold N. rewrite Hk, Hraw. cbn [obind].
    rewrite Hc. exact Hw. }
  exists raw, centred, w. repeat split; try done.
  - lia.
  - intros c Hsound. rewrite <- Hres. by apply vibrate_transparent.
Qed.

(** With a sample count of zero, or of [-2] and below, nothing is pulled
    from the generator: the frequency is not looked at. *)
Lemma np_fromiter_nothing_pulled (frequency damping : A) (count : Z) :
  (count = 0 \/ count <= -2)%Z ->
  np_fromiter_feedback_loop self frequency damping count = Ok [].
Proof.
  intros Hcount. unfold np_fromiter_feedback_loop.
  destruct (Z.ltb_spec 0 count); [lia|].
  by destruct (Z.eqb_spec count (-1)); [lia|].
Qed.

Lemma vibrate_wrapped_nothing_pulled (frequency : A) (duration : Time) (damping : A) :
  damping_ok damping = true ->
  (get_num_samples duration (sampling_rate self) = 0
   \/ get_num_samples duration (sampling_rate self) <= -2)%Z ->
  vibrate_wrapped frequency duration damping
  = let? centred := remove_dc [] in normalise centred.
Proof.
  intros Hk HN. unfold _vibrate_wrapped.
  by rewrite Hk, np_fromiter_nothing_pulled.
Qed.

End VibrateFacts.

(** ** [_vibrate] on binary64 *)

Section F64Vibrate.
Context {Time : Type} `{EqDecision Time}.
Context {Chord : Type} `{EqDecision Chord}.
Variable get_num_samples : Time -> Z -> Z.
Variables remove_dc normalise : list float -> outcome (list float).
Variable self : Synthesiser (A:=float) (Time:=Time) (Chord:=Chord).

Local Abbreviation vibrate_wrapped := (_vibrate_wrapped get_num_samples remove_dc normalise self).
Local Abbreviation vibrate := (_vibrate get_num_samples remove_dc normalise self).
Local Abbreviation sound_caches := (caches_sound get_num_samples remove_dc normalise self).

Lemma damping_ok_invalid (damping : float) :
  (damping <=? 0)%float = true \/ (0.5 <? damping)%float = true ->
  damping_ok damping = false.
Proof.
  unfold damping_ok. cbn [s_ltb s_leb s_zero s_half F64.scalar_ops F64.sample_ops].
  intros [Hle|Hgt].
  - by rewrite (f64_leb_ltb_false _ _ Hle).
  - by rewrite (f64_ltb_leb_false _ _ Hgt), andb_false_r.
Qed.

(** C3. On binary64, a damping [k] with [k <= 0] or [k > 0.5] makes
    [_vibrate] raise [AssertionError], whatever the frequency, the duration
    and the collaborators: the assertion runs before anything is pulled
    from the loop, and nothing is stored in the cache. A damping with
    [0 < k <= 0.5] passes the assertion: the result is the post-processed
    output of the loop. *)
Theorem vibrate_damping_assertion
    (frequency : float) (duration : Time) (damping : float) :
  ((damping <=? 0)%float = true \/ (0.5 <? damping)%float = true ->
     vibrate_wrapped frequency duration damping = Raise AssertionError
     /\ forall c : caches (A:=float) (Time:=Time) (Chord:=Chord),
          sound_caches c ->
          vibrate frequency duration damping c = (Raise AssertionError, c))
  /\ ((0 <? damping)%float = true /\ (damping <=? 0.5)%float = true ->
      vibrate_wrapped frequency duration damping
      = let? raw :=
          np_fromiter_feedback_loop self frequency damping
            (get_num_samples duration (sampling_rate self)) in
        let? centred := remove_dc raw in
        normalise centred).
Proof.
  split.
  - intros Hbad. apply damping_ok_invalid in Hbad.
    assert (Hw : vibrate_wrapped frequency duration damping = Raise AssertionError).
    { unfold _vibrate_wrapped. by rewrite Hbad. }
    split; [exact Hw|]. intros c Hc.
    destruct (vibrate_transparent get_num_samples remove_dc normalise self
                frequency duration damping c Hc) as [Hr _].
    rewrite Hw in Hr. revert Hr. unfold _vibrate, cache.
    destruct (lookup_cache _ _ _) as [w|]; [discriminate|].
    unfold mlift. rewrite Hw. reflexivity.
  - intros [Hlo Hhi]. unfold _vibrate_wrapped, damping_ok.
    cbn [s_ltb s_leb s_zero s_half F64.scalar_ops F64.sample_ops].
    by rewrite Hlo, Hhi.
Qed.

(** C6, amended. [_vibrate] validates the damping only; it has no check of
    the frequency or of the duration. With a damping in (0, 0.5] and [N]
    the sample count of the duration: when [N] is zero or at most [-2],
    [np.fromiter] pulls nothing and the call returns
    [normalise(remove_dc(empty array))] whatever the frequency, which is
    never looked at; when [N] is positive or [-1] and the frequency is
    zero, the division [sampling_rate / frequency] raises
    [ZeroDivisionError]; when [N] is [-1] and the burst is not empty,
    [np.fromiter] reads the endless loop and the call never returns. *)
Theorem vibrate_validates_damping_only
    (frequency : float) (duration : Time) (damping : float) :
  let N := get_num_samples duration (sampling_rate self) in
  (0 <? damping)%float = true -> (damping <=? 0.5)%float = true ->
  ((N = 0 \/ N <= -2)%Z ->
     vibrate_wrapped frequency duration damping
     = let? centred := remove_dc [] in normalise centred)
  /\ ((0 < N \/ N = -1)%Z ->
      (frequency =? 0)%float = true ->
      is_ok (F64.of_int (sampling_rate self)) = true ->
      vibrate_wrapped frequency duration damping = Raise ZeroDivisionError)
  /\ (N = (-1)%Z ->
      forall (x : float) (buffer : list float),
        feedback_loop_buffer self frequency = Ok (x :: buffer) ->
        vibrate_wrapped frequency duration damping = Diverge).
Proof.
  intros N Hlo Hhi.
  assert (Hk : damping_ok damping = true).
  { unfold damping_ok. cbn [s_ltb s_leb s_zero s_half F64.scalar_ops F64.sample_ops].
    by rewrite Hlo, Hhi. }
  split; [|split].
  - intros HN. by apply vibrate_wrapped_nothing_pulled.
  - intros HN Hf Hsr. unfold _vibrate_wrapped, np_fromiter_feedback_loop.
    fold N. rewrite Hk.
    replace ((0 <? N)%Z || (N =? -1)%Z) with true
      by (destruct (Z.ltb_spec 0 N), (Z.eqb_spec N (-1)); cbn; lia).
    unfold feedback_loop_buffer. cbn [s_rtruediv F64.scalar_ops]. unfold F64.rtruediv.
    destruct (F64.of_int (sampling_rate self)); try discriminate.
    cbn [obind]. by rewrite Hf.
  - intros HN x buffer Hbuf. unfold _vibrate_wrapped, np_fromiter_feedback_loop.
    fold N. by rewrite Hk, HN, Hbuf.
Qed.

End F64Vibrate.

(** ** [strum_strings] and determinism *)

Section StrumTheorems.
Context {A : Type} `{ScalarLaws A}.
Context {Time : Type} `{EqDecision Time}.
Context {Chord : Type} `{EqDecision Chord}.
Variable get_num_samples : Time -> Z -> Z.
Variables remove_dc normalise : list A -> outcome (list A).
Variable self : Synthesiser (A:=A) (Time:=Time) (Chord:=Chord).

Local Abbreviation vibrate_wrapped := (_vibrate_wrapped get_num_samples remove_dc normalise self).
Local Abbreviation vibrate := (_vibrate get_num_samples remove_dc normalise self).
Local Abbreviation strum := (strum_strings get_num_samples remove_dc normalise self).
Local Abbreviation strum_uncached := (strum_strings_uncached get_num_samples remove_dc normalise self).
Local Abbreviation sound_caches := (caches_sound get_num_samples remove_dc normalise self).
Local Abbreviation can_reach := (reachable get_num_samples remove_dc normalise self).

Lemma vibrate_each_wrapped_Forall2 (pitches : list Pitch) (vibration : Time)
    (sounds : list (list A)) :
  Forall2 (fun pitch sound =>
             vibrate_wrapped (frequency pitch) vibration (damping (instrument self))
             = Ok sound) pitches sounds ->
  vibrate_each_wrapped get_num_samples remove_dc normalise self pitches vibration
  = Ok sounds.
Proof.
  induction 1 as [|pitch sound pitches sounds Hhd _ IH]; [reflexivity|].
  cbn [vibrate_each_wrapped]. by rewrite Hhd, IH.
Qed.

(** C5. From any tables a process can hold, [strum_strings] resolves the
    duration to the instrument's own when [vibration] is [None], takes
    [upstroke] when the direction is [UP] and [downstroke] otherwise,
    synthesises one waveform per pitch of the stroke, in the stroke's
    order, from the pitch's frequency, that duration and the instrument's
    damping, and returns the overlay of those waveforms, in that order,
    with the velocity's delay. *)
Theorem strum_strings_composition (chord : Chord) (velocity : Velocity)
    (vibration_arg : option Time) (sounds : list (list A))
    (c : caches (A:=A) (Time:=Time) (Chord:=Chord)) :
  let duration :=
    match vibration_arg with
    | None => vibration (instrument self)
    | Some t => t
    end in
  let stroke :=
    match direction velocity with
    | UP => upstroke (instrument self)
    | DOWN => downstroke (instrument self)
    end in
  can_reach c ->
  Forall2 (fun pitch sound =>
             vibrate_wrapped (frequency pitch) duration (damping (instrument self))
             = Ok sound) (stroke chord) sounds ->
  fst (strum chord velocity vibration_arg c)
  = _overlay get_num_samples self sounds (delay velocity).
Proof.
  intros duration stroke Hc Hsounds. apply reachable_sound in Hc.
  destruct (strum_transparent get_num_samples remove_dc normalise self
              chord velocity vibration_arg c Hc) as [-> _].
  unfold strum_strings_uncached, stroke_of, vibration_of.
  subst duration stroke.
  by rewrite (vibrate_each_wrapped_Forall2 _ _ _ Hsounds).
Qed.

(** C7, amended. For a chord whose stroke yields no pitch, [strum_strings]
    raises [ValueError]: [_overlay] takes [max()] of an empty sequence.
    Nothing is stored. *)
Theorem strum_strings_no_pitches (chord : Chord) (velocity : Velocity)
    (vibration_arg : option Time) (c : caches (A:=A) (Time:=Time) (Chord:=Chord)) :
  can_reach c ->
  match direction velocity with
  | UP => upstroke (instrument self)
  | DOWN => downstroke (instrument self)
  end chord = [] ->
  strum chord velocity vibration_arg c = (Raise ValueError, c).
Proof.
  intros Hc Hempty. apply reachable_sound in Hc.
  assert (Hu : strum_uncached chord velocity vibration_arg = Raise ValueError).
  { unfold strum_strings_uncached, stroke_of. by rewrite Hempty. }
  unfold strum_strings, cache.
  destruct (lookup_cache _ _ (strum_cache c)) as [w|] eqn:Hhit.
  - destruct Hc as [_ Hs]. apply Hs in Hhit. congruence.
  - unfold strum_strings_wrapped, mbind, mlift. by rewrite Hempty.
Qed.

(** C9. With a burst generator that is a function of its arguments, as the
    model has it, [_vibrate] and [strum_strings] return the same result for
    the same arguments whatever the two caches hold at the time of the
    call: in any two states a process can reach, and in particular when the
    call is repeated at once. ([_overlay] reads no state: it is a function
    of its arguments.) *)
Theorem synthesis_deterministic (c c' : caches (A:=A) (Time:=Time) (Chord:=Chord)) :
  can_reach c -> can_reach c' ->
  (forall frequency duration damping,
      fst (vibrate frequency duration damping c)
      = fst (vibrate frequency duration damping c')
      /\ fst (vibrate frequency duration damping
                (snd (vibrate frequency duration damping c)))
         = fst (vibrate frequency duration damping c))
  /\ (forall chord velocity vibration_arg,
      fst (strum chord velocity vibration_arg c)
      = fst (strum chord velocity vibration_arg c')
      /\ fst (strum chord velocity vibration_arg
                (snd (strum chord velocity vibration_arg c)))
         = fst (strum chord velocity vibration_arg c)).
Proof.
  intros Hc Hc'. apply reachable_sound in Hc, Hc'. split.
  - intros f d k.
    destruct (vibrate_transparent get_num_samples remove_dc normalise self
                f d k c Hc) as [-> Hc1].
    destruct (vibrate_transparent get_num_samples remove_dc normalise self
                f d k c' Hc') as [-> _].
    split; [reflexivity|].
    by destruct (vibrate_transparent get_num_samples remove_dc normalise self
                   f d k _ Hc1) as [-> _].
  - intros ch v a.
    destruct (strum_transparent get_num_samples remove_dc normalise self
                ch v a c Hc) as [-> Hc1].
    destruct (strum_transparent get_num_samples remove_dc normalise self
                ch v a c' Hc') as [-> _].
    split; [reflexivity|].
    by destruct (strum_transparent get_num_samples remove_dc normalise self
                   ch v a _ Hc1) as [-> _].
Qed.

End StrumTheorems.

(** ** The recurrence never grows, on binary64

    The sum and the product of the loop are rounded. What keeps the bound
    of exact arithmetic is that rounding never passes a representable
    number: a sum of magnitude at most [2 * P] rounds to at most [2 * P]
    when that is a binary64 number, and its product with a damping of at
    most [0.5] rounds to at most [P]. The lemmas read this off the
    specification of the primitive operations on [spec_float]. *)

Section Binary64.
Local Open Scope Z_scope.

Lemma bpow_gt_0 (e : Z) : (0 < bpow e)%R.
Proof. apply powerRZ_lt; lra. Qed.

Lemma bpow_plus (a b : Z) : bpow (a + b) = (bpow a * bpow b)%R.
Proof. apply powerRZ_add; lra. Qed.

Lemma bpow_IZR (n : Z) : 0 <= n -> bpow n = IZR (2 ^ n).
Proof.
  intros Hn. unfold bpow. rewrite <- (Z2Nat.id n Hn).
  by rewrite <- pow_powerRZ, pow_IZR.
Qed.

Lemma bpow_le (a b : Z) : a <= b -> (bpow a <= bpow b)%R.
Proof.
  intros Hab. replace b with (a + (b - a)) by lia.
  rewrite bpow_plus, (bpow_IZR (b - a)) by lia.
  assert (1 <= 2 ^ (b - a)) as Hone by (apply (Z.pow_le_mono_r 2 0); lia).
  apply IZR_le in Hone. pose proof (bpow_gt_0 a). nra.
Qed.

Lemma bpow_lt_inv (a b : Z) : (bpow a < bpow b)%R -> a < b.
Proof.
  intros Hlt. destruct (Z_lt_le_dec a b) as [|Hle]; [done|].
  apply bpow_le in Hle. lra.
Qed.

Lemma digits2_pos_bounds (m : positive) :
  2 ^ (Z.pos (digits2_pos m) - 1) <= Z.pos m < 2 ^ Z.pos (digits2_pos m).
Proof.
  induction m as [m IH|m IH|]; cbn [digits2_pos].
  - rewrite Pos2Z.inj_succ, (Pos2Z.inj_xI m).
    replace (Z.succ (Z.pos (digits2_pos m)) - 1) with (Z.succ (Z.pos (digits2_pos m) - 1)) by lia.
    rewrite !Z.pow_succ_r by lia.
    set (lo := 2 ^ (Z.pos (digits2_pos m) - 1)) in *.
    set (hi := 2 ^ Z.pos (digits2_pos m)) in *. lia.
  - rewrite Pos2Z.inj_succ, (Pos2Z.inj_xO m).
    replace (Z.succ (Z.pos (digits2_pos m)) - 1) with (Z.succ (Z.pos (digits2_pos m) - 1)) by lia.
    rewrite !Z.pow_succ_r by lia.
    set (lo := 2 ^ (Z.pos (digits2_pos m) - 1)) in *.
    set (hi := 2 ^ Z.pos (digits2_pos m)) in *. lia.
  - cbn. lia.
Qed.

Lemma digits2_pos_bpow (m : positive) (e : Z) :
  (bpow (Z.pos (digits2_pos m) - 1 + e) <= IZR (Z.pos m) * bpow e
   < bpow (Z.pos (digits2_pos m) + e))%R.
Proof.
  destruct (digits2_pos_bounds m) as [Hlo Hhi].
  apply IZR_le in Hlo. apply IZR_lt in Hhi.
  rewrite !bpow_plus.
  rewrite (bpow_IZR (Z.pos (digits2_pos m) - 1)), (bpow_IZR (Z.pos (digits2_pos m))) by lia.
  pose proof (bpow_gt_0 e). split; nra.
Qed.

(** A larger value has at least as many digits in front of the point. *)
Lemma digits_le (m1 : positive) (e1 : Z) (m2 : positive) (e2 : Z) :
  (IZR (Z.pos m1) * bpow e1 <= IZR (Z.pos m2) * bpow e2)%R ->
  Z.pos (digits2_pos m1) + e1 <= Z.pos (digits2_pos m2) + e2.
Proof.
  intros Hle.
  pose proof (digits2_pos_bpow m1 e1) as [H1 _].
  pose proof (digits2_pos_bpow m2 e2) as [_ H2].
  assert (bpow (Z.pos (digits2_pos m1) - 1 + e1) < bpow (Z.pos (digits2_pos m2) + e2))%R
    as Hlt by lra.
  apply bpow_lt_inv in Hlt. lia.
Qed.

Lemma fexp_eq (x : Z) : fexp prec emax x = Z.max (x - 53) (-1074).
Proof. reflexivity. Qed.

Lemma bounded_inv (m : positive) (e : Z) :
  bounded prec emax m e = true ->
  fexp prec emax (Z.pos (digits2_pos m) + e) = e /\ e <= 971.
Proof.
  unfold bounded, canonical_mantissa. intros [H1 H2]%andb_prop.
  apply Z.eqb_eq in H1. apply Z.leb_le in H2. split; [done|].
  change (emax - prec) with 971 in H2. done.
Qed.


(** *** Shifting a mantissa to the right *)

Lemma iter_pos_nat {T : Type} (f : T -> T) (p : positive) (x : T) :
  SpecFloat.iter_pos f p x = Nat.iter (Pos.to_nat p) f x.
Proof.
  revert x. induction p as [p IH|p IH|]; intros x; cbn [SpecFloat.iter_pos].
  - rewrite !IH, Pos2Nat.inj_xI.
    replace (S (2 * Pos.to_nat p)) with (Pos.to_nat p + (Pos.to_nat p + 1))%nat by lia.
    by rewrite !Nat.iter_add.
  - rewrite !IH, Pos2Nat.inj_xO.
    replace (2 * Pos.to_nat p)%nat with (Pos.to_nat p + Pos.to_nat p)%nat by lia.
    by rewrite Nat.iter_add.
  - reflexivity.
Qed.

Lemma shr_1_nonneg (m : Z) (r s : bool) :
  0 <= m ->
  shr_1 (Build_shr_record m r s) = Build_shr_record (m / 2) (Z.odd m) (r || s).
Proof.
  intros Hm. rewrite <- Z.div2_div.
  destruct m as [|[p|p|]|p]; try reflexivity. lia.
Qed.

Lemma shr_iter_nonneg (k : nat) (m : Z) (r s : bool) :
  0 <= m ->
  let mrs := Nat.iter k shr_1 (Build_shr_record m r s) in
  shr_m mrs = m / 2 ^ Z.of_nat k
  /\ (r = false -> s = false -> m mod 2 ^ Z.of_nat k = 0 ->
      shr_r mrs = false /\ shr_s mrs = false).
Proof.
  intros Hm. induction k as [|k IH]; cbn zeta.
  - cbn. rewrite Z.div_1_r. split; [done|]. by intros -> ->.
  - rewrite Nat.iter_succ. cbn zeta in IH. destruct IH as [IHm IHx].
    destruct (Nat.iter k shr_1 _) as [mk rk sk]. cbn [shr_m shr_r shr_s] in *.
    assert (0 < 2 ^ Z.of_nat k) as Hpow by (apply Z.pow_pos_nonneg; lia).
    assert (0 <= mk) as Hmk by (subst mk; apply Z.div_pos; lia).
    rewrite shr_1_nonneg by done. cbn [shr_m shr_r shr_s].
    rewrite Nat2Z.inj_succ, Z.pow_succ_r by lia. split.
    + subst mk. rewrite Z.div_div by lia. f_equal. lia.
    + intros Hr Hs Hmod.
      assert (m = 2 ^ Z.of_nat k * (2 * (m / (2 * 2 ^ Z.of_nat k)))) as Hdiv.
      { pose proof (Z.div_mod m (2 * 2 ^ Z.of_nat k)) as Hdm. lia. }
      assert (m mod 2 ^ Z.of_nat k = 0) as Hmodk.
      { rewrite Hdiv, Z.mul_comm. apply Z_mod_mult. }
      destruct (IHx Hr Hs Hmodk) as [-> ->]. split; [|done].
      subst mk. rewrite Hdiv, Z.mul_comm, Z.div_mul by lia.
      by rewrite Z.odd_mul.
Qed.

Lemma shr_spec (m : Z) (r s : bool) (e n : Z) :
  0 <= m ->
  exists mrs,
    shr (Build_shr_record m r s) e n = (mrs, e + Z.max 0 n)
    /\ shr_m mrs = m / 2 ^ Z.max 0 n
    /\ (r = false -> s = false -> m mod 2 ^ Z.max 0 n = 0 ->
        shr_r mrs = false /\ shr_s mrs = false).
Proof.
  intros Hm. destruct n as [|p|p]; cbn [shr].
  - exists (Build_shr_record m r s). cbn. rewrite Z.add_0_r, Z.div_1_r.
    split; [done|]. split; [done|]. by intros -> ->.
  - exists (SpecFloat.iter_pos shr_1 p (Build_shr_record m r s)).
    replace (Z.max 0 (Z.pos p)) with (Z.pos p) by lia.
    split; [done|]. rewrite iter_pos_nat.
    pose proof (shr_iter_nonneg (Pos.to_nat p) m r s Hm) as Hk. cbn zeta in Hk.
    by rewrite positive_nat_Z in Hk.
  - exists (Build_shr_record m r s).
    replace (Z.max 0 (Z.neg p)) with 0 by lia. cbn. rewrite Z.add_0_r, Z.div_1_r.
    split; [done|]. split; [done|]. by intros -> ->.
Qed.

Lemma round_nearest_even_bounds (q : Z) (l : location) :
  q <= round_nearest_even q l <= q + 1.
Proof.
  destruct l as [|[| |]]; cbn; try lia. destruct (Z.even q); lia.
Qed.


(** The mantissa a rounding keeps is at most any multiple [G] of the new
    unit that is not below the value rounded. *)
Lemma round_nearest_even_le (m n G : Z) (mrs : shr_record) :
  0 <= m -> 0 <= n -> m <= G * 2 ^ n ->
  shr_m mrs = m / 2 ^ n ->
  (m mod 2 ^ n = 0 -> shr_r mrs = false /\ shr_s mrs = false) ->
  0 <= round_nearest_even (shr_m mrs) (loc_of_shr_record mrs) <= G.
Proof.
  intros Hm Hn HG Hq Hx.
  assert (0 < 2 ^ n) as Hpow by (apply Z.pow_pos_nonneg; lia).
  pose proof (Z.div_mod m (2 ^ n) ltac:(lia)) as Hdm.
  pose proof (Z.mod_pos_bound m (2 ^ n) Hpow) as Hr.
  assert (0 <= m / 2 ^ n) as Hq0 by (apply Z.div_pos; lia).
  pose proof (round_nearest_even_bounds (shr_m mrs) (loc_of_shr_record mrs)) as Hb.
  rewrite Hq in *.
  destruct (Z.eq_dec (m mod 2 ^ n) 0) as [Hz|Hnz].
  - destruct (Hx Hz) as [Hr0 Hs0]. destruct mrs as [q r s]. cbn in *. subst r s.
    cbn. subst q. nia.
  - nia.
Qed.

(** Rounding never passes a representable number: when the value
    [m * 2^e] is at most the value of the float [(mF, eF)], so is what
    [binary_round_aux] makes of it, and it does not overflow. *)
Lemma binary_round_aux_le (s : bool) (m : positive) (e : Z) (mF : positive) (eF : Z) :
  e <= fexp prec emax (Z.pos (digits2_pos m) + e) ->
  bounded prec emax mF eF = true ->
  (IZR (Z.pos m) * bpow e <= IZR (Z.pos mF) * bpow eF)%R ->
  SFleb (SFabs (binary_round_aux prec emax s (Z.pos m) e loc_Exact))
        (S754_finite false mF eF) = true.
Proof.
  intros Hn HF Hle.
  destruct (bounded_inv _ _ HF) as [HcF HeF].
  unfold binary_round_aux, shr_fexp. cbn [shr_record_of_loc Zdigits2].
  set (n := fexp prec emax (Z.pos (digits2_pos m) + e) - e).
  destruct (shr_spec (Z.pos m) false false e n ltac:(lia)) as (mrs & -> & Hq & Hx).
  replace (Z.max 0 n) with n in * by lia.
  set (e' := e + n).
  assert (e' <= eF) as He'.
  { subst e' n. pose proof (digits_le _ _ _ _ Hle). rewrite fexp_eq in HcF |- *. lia. }
  set (G := Z.pos mF * 2 ^ (eF - e')).
  assert (IZR G * bpow e' = IZR (Z.pos mF) * bpow eF)%R as HG.
  { subst G. rewrite mult_IZR, <- bpow_IZR, Rmult_assoc by lia.
    rewrite <- (bpow_plus (eF - e') e') in |- *.
    replace (eF - e' + e') with eF by lia. lra. }
  assert (Z.pos m <= G * 2 ^ n) as HmG.
  { apply le_IZR. rewrite mult_IZR, <- bpow_IZR by lia.
    apply (Rmult_le_reg_r (bpow e)); [apply bpow_gt_0|].
    rewrite Rmult_assoc, <- bpow_plus. replace (n + e) with e' by (subst e'; lia).
    lra. }
  pose proof (round_nearest_even_le (Z.pos m) n G mrs ltac:(lia) ltac:(lia) HmG Hq
                (Hx eq_refl eq_refl)) as Hm1.
  set (m1 := round_nearest_even (shr_m mrs) (loc_of_shr_record mrs)) in *.
  assert (IZR m1 * bpow e' <= IZR (Z.pos mF) * bpow eF)%R as Hv1.
  { rewrite <- HG. apply Rmult_le_compat_r; [apply Rlt_le, bpow_gt_0|].
    apply IZR_le. lia. }
  destruct (shr_spec m1 false false e' (fexp prec emax (Zdigits2 m1 + e') - e')
              ltac:(lia)) as (mrs2 & -> & Hq2 & _).
  rewrite Hq2.
  set (N2 := Z.max 0 (fexp prec emax (Zdigits2 m1 + e') - e')) in *.
  assert (0 < 2 ^ N2) as Hpow2 by (apply Z.pow_pos_nonneg; lia).
  destruct (m1 / 2 ^ N2) as [|p2|p2] eqn:Hm2.
  - reflexivity.
  - assert (0 < m1) as Hm1pos.
    { destruct (Z.eq_dec m1 0) as [Hz|]; [|lia]. rewrite Hz, Z.div_0_l in Hm2; lia. }
    destruct m1 as [|p1|p1]; try lia. cbn [Zdigits2] in *.
    assert (e' + N2 <= eF) as He2.
    { pose proof (digits_le _ _ _ _ Hv1) as Hd. subst N2.
      rewrite fexp_eq in HcF |- *. lia. }
    assert (IZR (Z.pos p2) * bpow (e' + N2) <= IZR (Z.pos mF) * bpow eF)%R as Hv2.
    { etransitivity; [|exact Hv1].
      rewrite (Z.add_comm e' N2), bpow_plus, (bpow_IZR N2), <- Rmult_assoc, <- mult_IZR by lia.
      apply Rmult_le_compat_r; [apply Rlt_le, bpow_gt_0|].
      apply IZR_le. rewrite <- Hm2. rewrite Z.mul_comm. apply Z.mul_div_le. lia. }
    replace (e' + N2 <=? emax - prec) with true
      by (symmetry; apply Z.leb_le; change (emax - prec) with 971; lia).
    unfold SFleb. cbn [SFabs SFcompare].
    destruct (Z.compare_spec (e' + N2) eF) as [Heq|Hlt|Hgt]; [|done|lia].
    rewrite Heq in Hv2.
    apply Rmult_le_reg_r in Hv2; [|apply bpow_gt_0]. apply le_IZR in Hv2.
    change (Pos.compare_cont Eq p2 mF) with (p2 ?= mF)%positive.
    destruct (Pos.compare_spec p2 mF); [done|done|lia].
  - pose proof (Z.div_pos m1 (2 ^ N2) ltac:(lia) Hpow2). lia.
Qed.


(** *** The order of binary64 and the order of the values *)

Lemma finite_lt_value (mx : positive) (ex : Z) (my : positive) (ey : Z) :
  bounded prec emax mx ex = true -> bounded prec emax my ey = true ->
  ex < ey \/ (ex = ey /\ (mx < my)%positive) ->
  (IZR (Z.pos mx) * bpow ex < IZR (Z.pos my) * bpow ey)%R.
Proof.
  intros [Hcx _]%bounded_inv [Hcy _]%bounded_inv [Hlt|[-> Hlt]].
  - rewrite fexp_eq in Hcx, Hcy.
    pose proof (digits2_pos_bpow mx ex) as [_ Hx].
    pose proof (digits2_pos_bpow my ey) as [Hy _].
    pose proof (bpow_le (Z.pos (digits2_pos mx) + ex) (Z.pos (digits2_pos my) - 1 + ey)
                  ltac:(lia)).
    lra.
  - apply Rmult_lt_compat_r; [apply bpow_gt_0|]. apply IZR_lt. lia.
Qed.

Lemma SFleb_value (mx : positive) (ex : Z) (my : positive) (ey : Z) :
  bounded prec emax mx ex = true -> bounded prec emax my ey = true ->
  SFleb (S754_finite false mx ex) (S754_finite false my ey) = true
  <-> (IZR (Z.pos mx) * bpow ex <= IZR (Z.pos my) * bpow ey)%R.
Proof.
  intros Hx Hy. unfold SFleb. cbn [SFcompare].
  change (Pos.compare_cont Eq mx my) with (mx ?= my)%positive.
  destruct (Z.compare_spec ex ey) as [Heq|Hlt|Hgt].
  - destruct (Pos.compare_spec mx my) as [->|Hm|Hm].
    + subst. split; [lra|done].
    + pose proof (finite_lt_value mx ex my ey Hx Hy ltac:(right; done)).
      split; [lra|done].
    + pose proof (finite_lt_value my ey mx ex Hy Hx ltac:(right; done)).
      split; [done|lra].
  - pose proof (finite_lt_value mx ex my ey Hx Hy ltac:(left; done)).
    split; [lra|done].
  - pose proof (finite_lt_value my ey mx ex Hy Hx ltac:(left; lia)).
    split; [done|lra].
Qed.

Lemma SF2R_abs (s : bool) (m : positive) (e : Z) :
  Rabs (SF2R (S754_finite s m e)) = (IZR (Z.pos m) * bpow e)%R.
Proof.
  assert (0 < IZR (Z.pos m) * bpow e)%R as Hpos.
  { apply Rmult_lt_0_compat; [by apply IZR_lt|apply bpow_gt_0]. }
  destruct s; cbn [SF2R].
  - rewrite Rabs_Ropp. apply Rabs_pos_eq. lra.
  - apply Rabs_pos_eq. lra.
Qed.

(** [abs x <= P] for a finite [P] bounds the value of [x]. *)
Lemma SFleb_abs_value (x P : spec_float) :
  valid_binary x = true -> valid_binary P = true ->
  SFfinite P = true ->
  SFleb (SFabs x) P = true ->
  SFfinite x = true /\ (Rabs (SF2R x) <= SF2R P)%R.
Proof.
  intros Hx HP HfP Hle.
  destruct P as [sP|sP| |sP mP eP]; try done.
  - destruct x as [sx|sx| |sx mx ex]; try done.
    cbn. rewrite Rabs_R0. split; [done|lra].
  - destruct x as [sx|sx| |sx mx ex]; try done.
    + destruct sP; [done|]. cbn. rewrite Rabs_R0. split; [done|].
      apply Rlt_le, Rmult_lt_0_compat; [by apply IZR_lt|apply bpow_gt_0].
    + destruct sP; [done|]. split; [done|]. rewrite SF2R_abs.
      by apply SFleb_value.
Qed.

Lemma value_SFleb_abs (x : spec_float) (mF : positive) (eF : Z) :
  valid_binary x = true -> bounded prec emax mF eF = true ->
  SFfinite x = true ->
  (Rabs (SF2R x) <= IZR (Z.pos mF) * bpow eF)%R ->
  SFleb (SFabs x) (S754_finite false mF eF) = true.
Proof.
  intros Hx HF Hfx Hle. destruct x as [sx|sx| |sx mx ex]; try done.
  rewrite SF2R_abs in Hle. by apply SFleb_value.
Qed.


(** *** Addition and multiplication stay below a representable bound *)

Lemma shl_align_spec (m : positive) (e e' : Z) :
  exists m',
    shl_align m e e' = (m', Z.min e e')
    /\ Z.pos m' = Z.pos m * 2 ^ (e - Z.min e e').
Proof.
  unfold shl_align. destruct (e' - e) as [|d|d] eqn:Hd.
  - exists m. replace (Z.min e e') with e by lia.
    rewrite Z.sub_diag. split; [done|]. cbn. lia.
  - exists m. replace (Z.min e e') with e by lia.
    rewrite Z.sub_diag. split; [done|]. cbn. lia.
  - exists (Pos.iter xO m d). replace (Z.min e e') with e' by lia.
    split; [done|]. replace (e - e') with (Z.pos d) by lia.
    change (Pos.iter xO m d) with (shift_pos d m).
    rewrite shift_pos_correct, Zpower_pos_nat, Zpower_nat_Z, positive_nat_Z. lia.
Qed.

Lemma shl_align_value (m : positive) (e e' : Z) (m' : positive) (e'' : Z) :
  shl_align m e e' = (m', e'') ->
  e'' = Z.min e e'
  /\ (IZR (Z.pos m') * bpow e'' = IZR (Z.pos m) * bpow e)%R.
Proof.
  intros Heq. destruct (shl_align_spec m e e') as (m0 & Heq0 & Hm0).
  rewrite Heq in Heq0. injection Heq0 as -> ->. split; [done|].
  rewrite Hm0, mult_IZR, <- bpow_IZR, Rmult_assoc, <- bpow_plus by lia.
  f_equal. f_equal. lia.
Qed.

Lemma binary_round_le (s : bool) (m : positive) (e : Z) (mF : positive) (eF : Z) :
  bounded prec emax mF eF = true ->
  (IZR (Z.pos m) * bpow e <= IZR (Z.pos mF) * bpow eF)%R ->
  SFleb (SFabs (binary_round prec emax s m e)) (S754_finite false mF eF) = true.
Proof.
  intros HF Hle. unfold binary_round.
  destruct (shl_align m e _) as [mz ez] eqn:Halign.
  apply shl_align_value in Halign as [Hez Hval].
  apply binary_round_aux_le; [|done|by rewrite Hval].
  assert (Z.pos (digits2_pos mz) + ez = Z.pos (digits2_pos m) + e) as ->.
  { apply Z.le_antisymm; apply digits_le; lra. }
  lia.
Qed.

Lemma binary_normalize_le (m e : Z) (mF : positive) (eF : Z) :
  bounded prec emax mF eF = true ->
  (Rabs (IZR m * bpow e) <= IZR (Z.pos mF) * bpow eF)%R ->
  SFleb (SFabs (binary_normalize prec emax m e false)) (S754_finite false mF eF) = true.
Proof.
  intros HF Hle. destruct m as [|p|p]; cbn [binary_normalize].
  - reflexivity.
  - apply binary_round_le; [done|]. rewrite <- (SF2R_abs false). exact Hle.
  - apply binary_round_le; [done|]. rewrite <- (SF2R_abs true). cbn [SF2R].
    change (Z.neg p) with (- Z.pos p) in Hle.
    by rewrite opp_IZR, Ropp_mult_distr_l_reverse in Hle.
Qed.

Lemma cond_Zopp_value (s : bool) (m : positive) (e : Z) :
  (IZR (cond_Zopp s (Z.pos m)) * bpow e)%R = SF2R (S754_finite s m e).
Proof. destruct s; cbn; [|done]. rewrite opp_IZR. lra. Qed.

Lemma SFadd_le (x y : spec_float) (mF : positive) (eF : Z) :
  valid_binary x = true -> valid_binary y = true ->
  SFfinite x = true -> SFfinite y = true ->
  bounded prec emax mF eF = true ->
  (Rabs (SF2R x + SF2R y) <= IZR (Z.pos mF) * bpow eF)%R ->
  SFleb (SFabs (SF64add x y)) (S754_finite false mF eF) = true.
Proof.
  intros Hx Hy Hfx Hfy HF Hle.
  destruct x as [sx|sx| |sx mx ex], y as [sy|sy| |sy my ey]; try done.
  - by destruct sx, sy.
  - cbn [SF64add SFadd]. apply value_SFleb_abs; try done.
    cbn [SF2R] in Hle |- *. by rewrite Rplus_0_l in Hle.
  - cbn [SF64add SFadd]. apply value_SFleb_abs; try done.
    cbn [SF2R] in Hle |- *. by rewrite Rplus_0_r in Hle.
  - unfold SF64add. cbn [SFadd].
    destruct (shl_align mx ex (Z.min ex ey)) as [mx' ex'] eqn:Hax.
    destruct (shl_align my ey (Z.min ex ey)) as [my' ey'] eqn:Hay.
    apply shl_align_value in Hax as [Hex' Hvx], Hay as [Hey' Hvy].
    replace (Z.min ex (Z.min ex ey)) with (Z.min ex ey) in Hex' by lia.
    replace (Z.min ey (Z.min ex ey)) with (Z.min ex ey) in Hey' by lia.
    subst ex' ey'. cbn [fst].
    apply binary_normalize_le; [done|].
    rewrite plus_IZR, Rmult_plus_distr_r, !cond_Zopp_value.
    cbn [SF2R] in Hle |- *. rewrite Hvx, Hvy. exact Hle.
Qed.

Lemma digits2_pos_mul (mx my : positive) :
  Z.pos (digits2_pos mx) + Z.pos (digits2_pos my) - 1 <= Z.pos (digits2_pos (mx * my)).
Proof.
  pose proof (digits2_pos_bounds mx) as [Hx _].
  pose proof (digits2_pos_bounds my) as [Hy _].
  pose proof (digits2_pos_bounds (mx * my)) as [_ Hxy].
  rewrite Pos2Z.inj_mul in Hxy.
  assert (2 ^ (Z.pos (digits2_pos mx) - 1 + (Z.pos (digits2_pos my) - 1))
          < 2 ^ Z.pos (digits2_pos (mx * my))) as Hlt.
  { rewrite Z.pow_add_r by lia.
    assert (0 < 2 ^ (Z.pos (digits2_pos mx) - 1)) by (apply Z.pow_pos_nonneg; lia).
    assert (0 < 2 ^ (Z.pos (digits2_pos my) - 1)) by (apply Z.pow_pos_nonneg; lia).
    nia. }
  apply Z.pow_lt_mono_r_iff in Hlt; lia.
Qed.

Lemma SFmul_le (x y : spec_float) (mF : positive) (eF : Z) :
  valid_binary x = true -> valid_binary y = true ->
  SFfinite x = true -> SFfinite y = true ->
  bounded prec emax mF eF = true ->
  (Rabs (SF2R x * SF2R y) <= IZR (Z.pos mF) * bpow eF)%R ->
  SFleb (SFabs (SF64mul x y)) (S754_finite false mF eF) = true.
Proof.
  intros Hx Hy Hfx Hfy HF Hle.
  destruct x as [sx|sx| |sx mx ex], y as [sy|sy| |sy my ey]; try done.
  unfold SF64mul. cbn [SFmul].
  apply binary_round_aux_le; [|done|].
  - cbn [valid_binary] in Hx, Hy.
    apply bounded_inv in Hx as [Hcx _], Hy as [Hcy _].
    pose proof (digits2_pos_mul mx my). rewrite fexp_eq in *. lia.
  - rewrite Rabs_mult, !SF2R_abs in Hle.
    rewrite Pos2Z.inj_mul, mult_IZR, bpow_plus. lra.
Qed.


(** *** One turn of the filter on binary64 *)

Lemma bounded_intro (m : positive) (e : Z) :
  fexp prec emax (Z.pos (digits2_pos m) + e) = e -> e <= 971 ->
  bounded prec emax m e = true.
Proof.
  intros Hc He. unfold bounded, canonical_mantissa.
  apply andb_true_intro. split; [by apply Z.eqb_eq|].
  apply Z.leb_le. by change (emax - prec) with 971.
Qed.

(** Twice a binary64 number of exponent at most 970 is a binary64 number. *)
Lemma double_bounded (mP : positive) (eP : Z) :
  bounded prec emax mP eP = true -> eP <= 970 ->
  exists (mB : positive) (eB : Z),
    bounded prec emax mB eB = true
    /\ (IZR (Z.pos mB) * bpow eB = 2 * (IZR (Z.pos mP) * bpow eP))%R.
Proof.
  intros [Hc _]%bounded_inv He. rewrite fexp_eq in Hc.
  destruct (Z.eq_dec (Z.pos (digits2_pos mP)) 53) as [Hd|Hd].
  - exists mP, (eP + 1). split.
    + apply bounded_intro; [rewrite fexp_eq|]; lia.
    + rewrite bpow_plus. change (bpow 1) with (2 * 1)%R. lra.
  - exists (mP~0)%positive, eP. split.
    + apply bounded_intro; [|lia]. cbn [digits2_pos].
      rewrite Pos2Z.inj_succ, fexp_eq. lia.
    + rewrite (Pos2Z.inj_xO mP), mult_IZR. lra.
Qed.

Lemma f64_damped_sum_bound (a b damping P : float) :
  (0 <? damping)%float = true -> (damping <=? 0.5)%float = true ->
  (P <=? half_max)%float = true ->
  (abs a <=? P)%float = true -> (abs b <=? P)%float = true ->
  (abs ((a + b) * damping) <=? P)%float = true.
Proof.
  rewrite FloatAxioms.ltb_spec, !FloatAxioms.leb_spec, !abs_spec, mul_spec, add_spec.
  pose proof (Prim2SF_valid a) as Hva. pose proof (Prim2SF_valid b) as Hvb.
  pose proof (Prim2SF_valid damping) as Hvk. pose proof (Prim2SF_valid P) as HvP.
  pose proof (Prim2SF_valid (a + b)) as Hvs. rewrite add_spec in Hvs.
  change (Prim2SF 0) with (S754_zero false).
  change (Prim2SF 0.5) with (S754_finite false 4503599627370496 (-53)).
  change (Prim2SF half_max) with (S754_finite false 9007199254740991 970).
  generalize dependent (Prim2SF a). generalize dependent (Prim2SF b).
  generalize dependent (Prim2SF damping). generalize dependent (Prim2SF P).
  clear a b damping P. intros P HvP k Hvk b Hvb a Hva Hvs Hk0 Hk Hmax Ha Hb.
  assert (exists mk ek, k = S754_finite false mk ek) as (mk & ek & ->).
  { destruct k as [sk|sk| |sk mk ek]; try done; destruct sk; try done. eauto. }
  assert (IZR (Z.pos mk) * bpow ek <= / 2)%R as Hhalf.
  { apply SFleb_value in Hk; [|done..].
    replace (/ 2)%R with (IZR 4503599627370496 * bpow (-53))%R; [done|].
    change 4503599627370496 with (2 ^ 52). rewrite <- bpow_IZR, <- bpow_plus by lia.
    change (bpow (52 + -53)) with (/ (2 * 1))%R. lra. }
  assert (0 < IZR (Z.pos mk) * bpow ek)%R as Hkpos.
  { apply Rmult_lt_0_compat; [by apply IZR_lt|apply bpow_gt_0]. }
  destruct P as [sP|sP| |sP mP eP].
  - destruct a as [sa|sa| |sa ma ea], b as [sb|sb| |sb mb eb]; try done.
    by destruct sa, sb.
  - destruct sP; [by destruct a as [?|[]| |[] ? ?]|done].
  - by destruct a as [?|[]| |[] ? ?].
  - destruct sP; [by destruct a as [?|[]| |[] ? ?]|].
    assert (eP <= 970) as HeP.
    { unfold SFleb in Hmax. cbn [SFcompare] in Hmax.
      destruct (Z.compare_spec eP 970); [lia|lia|done]. }
    destruct (double_bounded mP eP HvP HeP) as (mB & eB & HB & HvB).
    destruct (SFleb_abs_value _ _ Hva HvP eq_refl Ha) as [Hfa Hra].
    destruct (SFleb_abs_value _ _ Hvb HvP eq_refl Hb) as [Hfb Hrb].
    cbn [SF2R] in Hra, Hrb.
    assert (SFleb (SFabs (SF64add a b)) (S754_finite false mB eB) = true) as Hsum.
    { apply SFadd_le; try done. rewrite HvB.
      pose proof (Rabs_triang (SF2R a) (SF2R b)). lra. }
    destruct (SFleb_abs_value _ (S754_finite false mB eB) Hvs HB eq_refl Hsum)
      as [Hfs Hrs].
    cbn [SF2R] in Hrs. rewrite HvB in Hrs.
    apply SFmul_le; try done.
    rewrite Rabs_mult, (SF2R_abs false).
    pose proof (Rabs_pos (SF2R (SF64add a b))). nra.
Qed.


(** *** The order of binary64 on numbers *)

Ltac compare_cases :=
  unfold SFleb, SFltb, SFeqb; cbn [SFcompare SFabs];
  repeat match goal with
    | |- context [Pos.compare_cont Eq ?a ?b] =>
        change (Pos.compare_cont Eq a b) with (a ?= b)%positive
    end;
  repeat match goal with
    | |- context [(?a ?= ?b)%Z] => destruct (Z.compare_spec a b)
    | |- context [(?a ?= ?b)%positive] => destruct (Pos.compare_spec a b)
    end;
  cbn; try done; try lia.

Lemma SFleb_trans (x y z : spec_float) :
  SFleb x y = true -> SFleb y z = true -> SFleb x z = true.
Proof.
  destruct x as [[]|[]| |[] mx ex], y as [[]|[]| |[] my ey],
    z as [[]|[]| |[] mz ez]; try done; compare_cases.
Qed.

Lemma SFleb_ltb_trans (x y z : spec_float) :
  SFleb x y = true -> SFltb y z = true -> SFleb x z = true.
Proof.
  destruct x as [[]|[]| |[] mx ex], y as [[]|[]| |[] my ey],
    z as [[]|[]| |[] mz ez]; try done; compare_cases.
Qed.

Lemma SFleb_total (x y : spec_float) :
  SFeqb x x = true -> SFeqb y y = true -> SFltb y x = false -> SFleb x y = true.
Proof.
  destruct x as [[]|[]| |[] mx ex], y as [[]|[]| |[] my ey]; try done; compare_cases.
Qed.

Lemma SFleb_refl (x : spec_float) : SFeqb x x = true -> SFleb x x = true.
Proof. destruct x as [[]|[]| |[] mx ex]; try done; compare_cases. Qed.

Lemma SFabs_nonneg (x : spec_float) :
  SFeqb x x = true -> SFleb (S754_zero false) (SFabs x) = true.
Proof. by destruct x as [[]|[]| |[] mx ex]. Qed.

Lemma SFleb_number (x y : spec_float) :
  SFleb (SFabs x) y = true -> SFeqb x x = true.
Proof. destruct x as [[]|[]| |[] mx ex]; try done; compare_cases. Qed.

Lemma SFabs_number (x : spec_float) :
  SFeqb x x = true -> SFeqb (SFabs x) (SFabs x) = true.
Proof. destruct x as [[]|[]| |[] mx ex]; try done; compare_cases. Qed.

End Binary64.

Section F64Stability.
Local Open Scope float_scope.

Lemma f64_number (x : float) :
  is_nan x = false -> SFeqb (Prim2SF x) (Prim2SF x) = true.
Proof. unfold is_nan. rewrite FloatAxioms.eqb_spec. by destruct (SFeqb _ _). Qed.

Lemma f64_number_inv (x : float) :
  SFeqb (Prim2SF x) (Prim2SF x) = true -> is_nan x = false.
Proof. unfold is_nan. rewrite FloatAxioms.eqb_spec. by intros ->. Qed.

Lemma f64_abs_number (x : float) : is_nan x = false -> is_nan (abs x) = false.
Proof.
  intros Hx%f64_number. apply f64_number_inv. rewrite abs_spec.
  by apply SFabs_number.
Qed.

Lemma f64_leb_trans (x y z : float) :
  (x <=? y) = true -> (y <=? z) = true -> (x <=? z) = true.
Proof. rewrite !FloatAxioms.leb_spec. apply SFleb_trans. Qed.

Lemma f64_leb_ltb_trans (x y z : float) :
  (x <=? y) = true -> (y <? z) = true -> (x <=? z) = true.
Proof. rewrite !FloatAxioms.leb_spec, FloatAxioms.ltb_spec. apply SFleb_ltb_trans. Qed.

Lemma f64_leb_total (x y : float) :
  is_nan x = false -> is_nan y = false -> (y <? x) = false -> (x <=? y) = true.
Proof.
  intros Hx%f64_number Hy%f64_number.
  rewrite FloatAxioms.leb_spec, FloatAxioms.ltb_spec. by apply SFleb_total.
Qed.

Lemma f64_leb_refl (x : float) : is_nan x = false -> (x <=? x) = true.
Proof. intros Hx%f64_number. rewrite FloatAxioms.leb_spec. by apply SFleb_refl. Qed.

Lemma f64_abs_nonneg (x : float) : is_nan x = false -> (0 <=? abs x) = true.
Proof.
  intros Hx%f64_number. rewrite FloatAxioms.leb_spec, abs_spec.
  by apply SFabs_nonneg.
Qed.

Lemma peak_cons (x : float) (buffer : list float) :
  peak (x :: buffer) = if (peak buffer <? abs x) then abs x else peak buffer.
Proof. reflexivity. Qed.

Lemma peak_number (buffer : list float) :
  Forall (fun x => is_nan x = false) buffer -> is_nan (peak buffer) = false.
Proof.
  induction 1 as [|x l Hx _ IH]; [reflexivity|]. rewrite peak_cons.
  destruct (peak l <? abs x); [by apply f64_abs_number | exact IH].
Qed.

Lemma peak_nonneg (buffer : list float) :
  Forall (fun x => is_nan x = false) buffer -> (0 <=? peak buffer) = true.
Proof.
  induction 1 as [|x l Hx _ IH]; [reflexivity|]. rewrite peak_cons.
  destruct (peak l <? abs x); [by apply f64_abs_nonneg | exact IH].
Qed.

Lemma peak_ge (buffer : list float) :
  Forall (fun x => is_nan x = false) buffer ->
  Forall (fun x => (abs x <=? peak buffer) = true) buffer.
Proof.
  induction 1 as [|x l Hx Hl IH]; [constructor|]. rewrite peak_cons.
  destruct (peak l <? abs x) eqn:Hlt; constructor.
  - by apply f64_leb_refl, f64_abs_number.
  - eapply Forall_impl; [exact IH|]. intros y Hy. cbn in Hy.
    by apply (f64_leb_ltb_trans _ (peak l)).
  - apply f64_leb_total; [by apply f64_abs_number | by apply peak_number | exact Hlt].
  - exact IH.
Qed.

Lemma peak_le (buffer : list float) (P : float) :
  (0 <=? P) = true ->
  Forall (fun x => (abs x <=? P) = true) buffer ->
  (peak buffer <=? P) = true.
Proof.
  intros HP. induction 1 as [|x l Hx _ IH]; [exact HP|]. rewrite peak_cons.
  by destruct (peak l <? abs x).
Qed.

Lemma damping_ok_f64 (damping : float) :
  damping_ok damping = true ->
  (0 <? damping) = true /\ (damping <=? 0.5) = true.
Proof.
  unfold damping_ok. cbn [s_ltb s_leb s_zero s_half F64.scalar_ops F64.sample_ops].
  by intros [? ?]%andb_prop.
Qed.

(** One turn of the loop keeps every bound [P] that leaves room for a sum. *)
Lemma loop_body_bounded (damping : float) (buffer : list float) (i : nat) (P : float) :
  damping_ok damping = true ->
  (P <=? half_max) = true -> (0 <=? P) = true ->
  Forall (fun x => (abs x <=? P) = true) buffer ->
  (abs (fst (loop_body damping buffer i)) <=? P) = true
  /\ Forall (fun x => (abs x <=? P) = true) (snd (loop_body damping buffer i)).
Proof.
  intros [Hlo Hhi]%damping_ok_f64 Hmax HP Hall.
  assert (Hnth : forall j, (abs (nth j buffer 0) <=? P) = true).
  { intros j. destruct (nth_lookup_or_length buffer j 0) as [Hj|Hj].
    - rewrite Forall_lookup in Hall. by apply (Hall j).
    - rewrite nth_overflow by lia. exact HP. }
  unfold loop_body. cbn [fst snd s_zero s_add s_mul F64.sample_ops].
  split; [apply Hnth|].
  apply Forall_insert; [exact Hall|].
  by apply f64_damped_sum_bound.
Qed.

Lemma feedback_loop_from_bounded (damping : float) (n : nat) (P : float) :
  damping_ok damping = true ->
  (P <=? half_max) = true -> (0 <=? P) = true ->
  forall (buffer : list float) (i : nat),
    Forall (fun x => (abs x <=? P) = true) buffer ->
    Forall (fun y => (abs y <=? P) = true)
      (fst (feedback_loop_from damping buffer i n))
    /\ Forall (fun x => (abs x <=? P) = true)
         (fst (snd (feedback_loop_from damping buffer i n))).
Proof.
  intros Hk Hmax HP. induction n as [|n IH]; intros buffer i Hall.
  - cbn. split; [constructor | exact Hall].
  - cbn [feedback_loop_from].
    destruct (loop_body_bounded damping buffer i P Hk Hmax HP Hall) as [Hy Hb].
    destruct (loop_body damping buffer i) as [y buffer'] eqn:Ebody.
    cbn [fst snd] in Hy, Hb.
    destruct (IH buffer' (cycle_next (length buffer) i) Hb) as [Hys Hb'].
    destruct (feedback_loop_from damping buffer' _ n) as [ys st].
    cbn [fst snd] in *. split; [by constructor | exact Hb'].
Qed.

Context {Time Chord : Type}.
Variable self : Synthesiser (A:=float) (Time:=Time) (Chord:=Chord).

(** C8, amended. On binary64, for a damping in (0, 0.5] and a ring buffer
    of numbers (no NaN) whose largest magnitude is at most half the largest
    finite binary64 number, so that no sum [a + b] overflows: one turn of
    the loop never increases the largest magnitude held in the ring buffer,
    so it never increases over any number of turns, and every sample that
    [np.fromiter] pulls from the loop is bounded in magnitude by the peak
    of the initial burst. *)
Theorem feedback_loop_never_grows (damping : float) :
  damping_ok damping = true ->
  (forall (buffer : list float) (i : nat),
      Forall (fun x => is_nan x = false) buffer ->
      (peak buffer <=? half_max) = true ->
      (peak (snd (loop_body damping buffer i)) <=? peak buffer) = true)
  /\ (forall (buffer : list float) (i n : nat),
      Forall (fun x => is_nan x = false) buffer ->
      (peak buffer <=? half_max) = true ->
      (peak (fst (snd (feedback_loop_from damping buffer i n))) <=? peak buffer) = true)
  /\ (forall (frequency : float) (count : Z) (buffer raw : list float),
      feedback_loop_buffer self frequency = Ok buffer ->
      Forall (fun x => is_nan x = false) buffer ->
      (peak buffer <=? half_max) = true ->
      np_fromiter_feedback_loop self frequency damping count = Ok raw ->
      Forall (fun y => (abs y <=? peak buffer) = true) raw).
Proof.
  intros Hk. split; [|split].
  - intros buffer i Hnum Hmax.
    apply peak_le; [by apply peak_nonneg|].
    by apply loop_body_bounded; [| |apply peak_nonneg|apply peak_ge].
  - intros buffer i n Hnum Hmax.
    apply peak_le; [by apply peak_nonneg|].
    by apply feedback_loop_from_bounded; [| |apply peak_nonneg|apply peak_ge].
  - intros frequency count buffer raw Hbuf Hnum Hmax.
    unfold np_fromiter_feedback_loop.
    destruct ((0 <? count)%Z || (count =? -1)%Z); [|intros [= <-]; constructor].
    rewrite Hbuf. cbn [obind].
    destruct buffer as [|x buffer].
    + destruct (0 <? count)%Z; [discriminate|]. intros [= <-]; constructor.
    + destruct (0 <? count)%Z; [|discriminate]. intros [= <-].
      by apply feedback_loop_from_bounded; [| |apply peak_nonneg|apply peak_ge].
Qed.

End F64Stability.


(** * The theorems at work on the concrete synthesisers *)

Section Concrete.
Local Open Scope float_scope.

Local Abbreviation ten_ms := (Q2Qc (1 # 100)).
Local Abbreviation twenty_ms := (Q2Qc (2 # 100)).

Lemma demo_post_processing_shape :
  (forall x, x <> [] -> exists y, Demo.remove_dc x = Ok y /\ length y = length x)
  /\ (forall x, x <> [] -> exists y, Demo.normalise x = Ok y /\ length y = length x).
Proof.
  split; intros x _; eexists; (split; [reflexivity|]); apply length_map.
Qed.

Lemma vibrate_delay_line_and_recurrence_witness :
  feedback_loop_buffer Demo.synthesiser 220 = Ok (Demo.delay_line 200)
  /\ np_fromiter_feedback_loop Demo.synthesiser 220 0.5 441
     = Ok (karplus_strong 0.5 200 (Demo.delay_line 200) 0 441).
Proof.
  destruct (vibrate_delay_line_and_recurrence (H:=F64.sample_ops)
              Demo.get_num_samples Demo.remove_dc Demo.normalise Demo.synthesiser
              220 0.5 200%Z (Demo.delay_line 200) f64_mul_comm)
    as (Hbuffer & Hraw & _); try (vm_compute; reflexivity).
  split; [exact Hbuffer|]. apply (Hraw 441%Z); reflexivity.
Defined.

Lemma overlay_length_and_mix_witness :
  exists out,
    Demo.overlay [[1; 2; 3]; [10; 20]; [100]] twenty_ms = Ok out
    /\ (2 * 882 + 1 <= Z.of_nat (length out))%Z
    /\ out !! 882%nat = Some (mix_from 882 0 [[1; 2; 3]; [10; 20]; [100]] 882 0).
Proof.
  destruct (overlay_length_and_mix Demo.get_num_samples Demo.synthesiser
              [[1; 2; 3]; [10; 20]; [100]] twenty_ms)
    as (out & Hout & Hbound & _ & Hmix); [discriminate | vm_compute; discriminate |].
  exists out. split; [exact Hout|]. split.
  - apply (Hbound 2%nat [100]). reflexivity.
  - apply (Hmix 882%nat). specialize (Hbound 2%nat [100] eq_refl).
    change (Demo.get_num_samples twenty_ms (sampling_rate Demo.synthesiser))
      with 882%Z in Hbound.
    cbn in Hbound. lia.
Defined.

Lemma overlay_length_and_mix_counterexample :
  Demo.get_num_samples (Q2Qc (-3 # 44100)) 44100 = (-3)%Z
  /\ Demo.overlay [Examples.ascending; Examples.ascending] (Q2Qc (-3 # 44100))
     = Raise ValueError
  /\ Demo.get_num_samples Examples.minus_five_samples 44100 = (-5)%Z
  /\ Demo.overlay [Examples.ascending; Examples.two_hundreds] Examples.minus_five_samples
     = Ok [1; 2; 3; 4; 5; 106; 207; 8; 9; 10].
Proof. repeat split; vm_compute; reflexivity. Qed.

Lemma vibrate_damping_assertion_witness :
  Demo.vibrate_wrapped 220 ten_ms 0.75 = Raise AssertionError
  /\ Demo.vibrate 220 ten_ms 0.75 no_caches = (Raise AssertionError, no_caches)
  /\ Demo.vibrate_wrapped 220 ten_ms 0.25
     = (let? raw := np_fromiter_feedback_loop Demo.synthesiser 220 0.25 441 in
        let? centred := Demo.remove_dc raw in
        Demo.normalise centred).
Proof.
  destruct (vibrate_damping_assertion
              Demo.get_num_samples Demo.remove_dc Demo.normalise Demo.synthesiser
              220 ten_ms 0.75) as [Hinvalid _].
  destruct Hinvalid as [Hwrapped Hcached]; [right; reflexivity|].
  destruct (vibrate_damping_assertion
              Demo.get_num_samples Demo.remove_dc Demo.normalise Demo.synthesiser
              220 ten_ms 0.25) as [_ Hvalid].
  split; [exact Hwrapped|]. split.
  - apply Hcached, caches_sound_start.
  - apply Hvalid. split; reflexivity.
Defined.

Lemma vibrate_length_counterexample :
  (0 <? 100000) = true
  /\ Demo.get_num_samples ten_ms 44100 = 441%Z
  /\ damping_ok 0.5 = true
  /\ Demo.vibrate_wrapped 100000 ten_ms 0.5 = Raise ValueError.
Proof. repeat split; vm_compute; reflexivity. Qed.

Lemma vibrate_length_and_postprocessing_witness :
  exists w,
    Demo.vibrate_wrapped 220 ten_ms 0.5 = Ok w
    /\ Z.of_nat (length w) = 441%Z
    /\ fst (Demo.vibrate 220 ten_ms 0.5 no_caches) = Ok w.
Proof.
  destruct demo_post_processing_shape as [Hdc Hnorm].
  destruct (vibrate_length_and_postprocessing
              Demo.get_num_samples Demo.remove_dc Demo.normalise Demo.synthesiser
              220 ten_ms 0.5 200%Z (Demo.delay_line 200))
    as (raw & centred & w & _ & _ & _ & _ & Hw & Hlen & Hcached);
    try (vm_compute; reflexivity); try assumption.
  { vm_compute. discriminate. }
  exists w. split; [exact Hw|]. split; [exact Hlen|].
  apply Hcached, caches_sound_start.
Defined.

Lemma strum_strings_composition_witness :
  fst (Demo.strum [220; 330] {| direction := UP; delay := twenty_ms |} None no_caches)
  = Demo.overlay [Demo.string_sound 330; Demo.string_sound 220] twenty_ms.
Proof.
  apply (strum_strings_composition
           Demo.get_num_samples Demo.remove_dc Demo.normalise Demo.synthesiser
           [220; 330] {| direction := UP; delay := twenty_ms |} None
           [Demo.string_sound 330; Demo.string_sound 220] no_caches).
  - apply reachable_start.
  - constructor 2; [vm_compute; reflexivity|].
    constructor 2; [vm_compute; reflexivity|].
    constructor 1.
Defined.

Lemma vibrate_validation_counterexample :
  Demo.get_num_samples (Q2Qc (-1 # 44100)) 44100 = (-1)%Z
  /\ Demo.vibrate_wrapped 220 (Q2Qc (-1 # 44100)) 0.5 = Diverge
  /\ Demo.get_num_samples (Q2Qc 0) 44100 = 0%Z
  /\ np_fromiter_feedback_loop Demo.synthesiser (-220) 0.5 0 = Ok []
  /\ Demo.get_num_samples (Q2Qc (-1 # 100)) 44100 = (-441)%Z
  /\ np_fromiter_feedback_loop Demo.synthesiser (-220) 0.5 (-441) = Ok [].
Proof. repeat split; vm_compute; reflexivity. Qed.

Lemma vibrate_validates_damping_only_witness :
  Demo.vibrate_wrapped (-220) (Q2Qc (-1 # 100)) 0.5
  = (let? centred := Demo.remove_dc [] in Demo.normalise centred)
  /\ Demo.vibrate_wrapped 0 ten_ms 0.5 = Raise ZeroDivisionError
  /\ Demo.vibrate_wrapped 220 (Q2Qc (-1 # 44100)) 0.5 = Diverge.
Proof.
  destruct (vibrate_validates_damping_only
              Demo.get_num_samples Demo.remove_dc Demo.normalise Demo.synthesiser
              (-220) (Q2Qc (-1 # 100)) 0.5 eq_refl eq_refl) as (Hnothing & _ & _).
  destruct (vibrate_validates_damping_only
              Demo.get_num_samples Demo.remove_dc Demo.normalise Demo.synthesiser
              0 ten_ms 0.5 eq_refl eq_refl) as (_ & Hdivision & _).
  destruct (vibrate_validates_damping_only
              Demo.get_num_samples Demo.remove_dc Demo.normalise Demo.synthesiser
              220 (Q2Qc (-1 # 44100)) 0.5 eq_refl eq_refl) as (_ & _ & Hendless).
  split; [|split].
  - apply Hnothing. right. vm_compute. discriminate.
  - apply Hdivision; [left; reflexivity | reflexivity | reflexivity].
  - apply (Hendless eq_refl (Demo.noise 0) (map Demo.noise (seq 1 199))).
    vm_compute. reflexivity.
Defined.

Lemma strum_strings_no_pitches_counterexample :
  Demo.low_to_high [] = []
  /\ Demo.strum [] {| direction := DOWN; delay := twenty_ms |} None no_caches
     = (Raise ValueError, no_caches).
Proof. split; vm_compute; reflexivity. Qed.

Lemma strum_strings_no_pitches_witness :
  Demo.strum [] {| direction := UP; delay := twenty_ms |} (Some ten_ms) no_caches
  = (Raise ValueError, no_caches).
Proof.
  apply (strum_strings_no_pitches
           Demo.get_num_samples Demo.remove_dc Demo.normalise Demo.synthesiser).
  - apply reachable_start.
  - reflexivity.
Defined.

Lemma feedback_loop_never_grows_counterexample :
  damping_ok 0.5 = true
  /\ loop_body 0.5 [0x1.fffffffffffffp+1023; 0x1.fffffffffffffp+1023] 0
     = (0x1.fffffffffffffp+1023, [infinity; 0x1.fffffffffffffp+1023])
  /\ peak [0x1.fffffffffffffp+1023; 0x1.fffffffffffffp+1023] = 0x1.fffffffffffffp+1023
  /\ peak (snd (loop_body 0.5 [0x1.fffffffffffffp+1023; 0x1.fffffffffffffp+1023] 0))
     = infinity
  /\ fst (feedback_loop_from 0.5 [0x1.fffffffffffffp+1023; 0x1.fffffffffffffp+1023] 0 3)
     = [0x1.fffffffffffffp+1023; 0x1.fffffffffffffp+1023; infinity].
Proof. repeat split; vm_compute; reflexivity. Qed.

Lemma feedback_loop_never_grows_witness :
  (peak (snd (loop_body 0.5 (Demo.delay_line 200) 0)) <=? peak (Demo.delay_line 200)) = true
  /\ Forall (fun y => (abs y <=? peak (Demo.delay_line 200)) = true) Examples.raw_sound.
Proof.
  destruct (feedback_loop_never_grows Demo.synthesiser 0.5 eq_refl)
    as (Hturn & _ & Hraw).
  assert (Hnum : Forall (fun x => is_nan x = false) (Demo.delay_line 200)).
  { apply (bool_decide_unpack
             (Forall (fun x => is_nan x = false) (Demo.delay_line 200))).
    vm_compute. exact I. }
  assert (Hmax : (peak (Demo.delay_line 200) <=? half_max) = true)
    by (vm_compute; reflexivity).
  split.
  - exact (Hturn (Demo.delay_line 200) 0%nat Hnum Hmax).
  - refine (Hraw 220 441%Z (Demo.delay_line 200) Examples.raw_sound _ Hnum Hmax _);
      vm_compute; reflexivity.
Defined.

Lemma synthesis_deterministic_witness :
  fst (Demo.vibrate 220 ten_ms 0.5 (snd (Demo.vibrate 220 ten_ms 0.5 no_caches)))
  = fst (Demo.vibrate 220 ten_ms 0.5 no_caches)
  /\ fst (Demo.strum [220; 330] {| direction := UP; delay := twenty_ms |} None
            (snd (Demo.vibrate 330 ten_ms 0.5 no_caches)))
     = fst (Demo.strum [220; 330] {| direction := UP; delay := twenty_ms |} None
              no_caches).
Proof.
  destruct (synthesis_deterministic
              Demo.get_num_samples Demo.remove_dc Demo.normalise Demo.synthesiser
              no_caches (snd (Demo.vibrate 330 ten_ms 0.5 no_caches)))
    as [Hvibrate Hstrum].
  - apply reachable_start.
  - apply reachable_vibrate, reachable_start.
  - split.
    + exact (proj2 (Hvibrate 220 ten_ms 0.5)).
    + exact (eq_sym (proj1 (Hstrum [220; 330]
                              {| direction := UP; delay := twenty_ms |} None))).
Defined.



End Concrete.

(** * More about the feedback loop *)

Section LoopStructure.
Context {A : Type} `{SampleOps A}.

Lemma cycle_next_lt (L i : nat) : 0 < L -> cycle_next L i < L.
Proof. intros HL. unfold cycle_next. destruct (decide (S i < L)); lia. Qed.

Lemma cycle_next_succ_mod (L i : nat) : i < L -> cycle_next L i = S i mod L.
Proof.
  intros Hi. rewrite <- (Nat.mod_small i L) at 1 by exact Hi.
  apply cycle_next_mod. lia.
Qed.

Lemma loop_body_length (damping : A) (buffer : list A) (i : nat) :
  length (snd (loop_body damping buffer i)) = length buffer.
Proof. unfold loop_body. cbn [snd]. apply length_insert. Qed.

(** Running [n + m] turns is running [n] turns and then [m] more from the
    state reached. *)
Lemma feedback_loop_from_app (damping : A) (n m : nat) :
  forall (buffer : list A) (i : nat),
    feedback_loop_from damping buffer i (n + m)
    = let '(ys, (buffer', i')) := feedback_loop_from damping buffer i n in
      let '(zs, st) := feedback_loop_from damping buffer' i' m in
      (ys ++ zs, st).
Proof.
  induction n as [|n IH]; intros buffer i.
  - cbn. by destruct (feedback_loop_from damping buffer i m).
  - cbn [Nat.add feedback_loop_from].
    destruct (loop_body damping buffer i) as [y buffer1].
    rewrite IH.
    destruct (feedback_loop_from damping buffer1 _ n) as [ys [buffer' i']].
    by destruct (feedback_loop_from damping buffer' i' m) as [zs st].
Qed.

(** The loop keeps the size of the ring and its index inside the ring. *)
Lemma feedback_loop_keeps_ring (damping : A) (n : nat) :
  forall (buffer : list A) (i : nat),
    i < length buffer ->
    length (fst (snd (feedback_loop_from damping buffer i n))) = length buffer
    /\ snd (snd (feedback_loop_from damping buffer i n)) = (i + n) mod length buffer.
Proof.
  induction n as [|n IH]; intros buffer i Hi.
  - cbn. split; [reflexivity|]. rewrite Nat.add_0_r. symmetry. by apply Nat.mod_small.
  - cbn [feedback_loop_from].
    pose proof (loop_body_length damping buffer i) as Hlen.
    destruct (loop_body damping buffer i) as [y buffer1]. cbn [snd] in Hlen.
    destruct (IH buffer1 (cycle_next (length buffer) i)) as [IH1 IH2].
    { rewrite Hlen. apply cycle_next_lt. lia. }
    destruct (feedback_loop_from damping buffer1 _ n) as [ys [buffer' i']].
    cbn [fst snd] in *. rewrite IH1, IH2, Hlen. split; [reflexivity|].
    rewrite cycle_next_succ_mod by exact Hi.
    rewrite Nat.Div0.add_mod_idemp_l. f_equal. lia.
Qed.

(** The first turns read the ring as it was: turn [s < L] yields the cell
    [(i + s) mod L] of the initial buffer. *)
Lemma feedback_loop_first_period (damping : A) (n : nat) :
  forall (buffer : list A) (i s : nat),
    i < length buffer -> s < length buffer -> s < n ->
    nth s (fst (feedback_loop_from damping buffer i n)) s_zero
    = nth ((i + s) mod length buffer) buffer s_zero.
Proof.
  induction n as [|n IH]; intros buffer i s Hi Hs Hn; [lia|].
  cbn [feedback_loop_from].
  pose proof (loop_body_length damping buffer i) as Hlen.
  unfold loop_body in *. cbn [snd] in Hlen.
  set (buffer1 := <[i:=_]> buffer) in *.
  specialize (IH buffer1 (cycle_next (length buffer) i)).
  destruct (feedback_loop_from damping buffer1 _ n) as [ys st]. cbn [fst] in *.
  destruct s as [|s].
  - cbn. by rewrite Nat.add_0_r, Nat.mod_small.
  - cbn [nth]. rewrite IH; [| rewrite Hlen; apply cycle_next_lt; lia | lia | lia].
    rewrite Hlen, cycle_next_succ_mod by exact Hi.
    rewrite Nat.Div0.add_mod_idemp_l.
    replace (S i + s) with (i + S s) by lia.
    assert (Hne : i <> (i + S s) mod length buffer).
    { intros Heq.
      destruct (decide (i + S s < length buffer)) as [Hlt|Hge].
      - rewrite Nat.mod_small in Heq by exact Hlt. lia.
      - replace (i + S s) with ((i + S s - length buffer) + 1 * length buffer) in Heq by lia.
        rewrite Nat.Div0.mod_add, Nat.mod_small in Heq by lia. lia. }
    rewrite !nth_lookup. unfold buffer1.
    by rewrite list_lookup_insert_ne.
Qed.

End LoopStructure.

Section LoopRecurrence.
Context {A : Type} `{ScalarOps A} {Time Chord : Type}.
Variable self : Synthesiser (A:=A) (Time:=Time) (Chord:=Chord).

(** One period after a turn, the loop yields what that turn wrote. *)
Lemma feedback_loop_period_later (damping : A) (n : nat) (buffer : list A) (i : nat) :
  i < length buffer -> length buffer < n ->
  nth (length buffer) (fst (feedback_loop_from damping buffer i n)) s_zero
  = s_mul (s_add (nth i buffer s_zero)
                 (nth ((i + 1) mod length buffer) buffer s_zero)) damping.
Proof.
  intros Hi Hn. destruct n as [|n]; [lia|]. cbn [feedback_loop_from].
  pose proof (loop_body_length damping buffer i) as Hlen.
  unfold loop_body in *. cbn [snd] in Hlen.
  set (v := s_mul _ damping) in *. set (buffer1 := <[i:=v]> buffer) in *.
  pose proof (feedback_loop_first_period damping n buffer1
                (cycle_next (length buffer) i) (length buffer - 1)) as Hfirst.
  destruct (feedback_loop_from damping buffer1 _ n) as [ys st]. cbn [fst] in *.
  destruct (length buffer) as [|L] eqn:HL; [lia|]. cbn [nth].
  replace (S L - 1) with L in Hfirst by lia.
  rewrite Hfirst; [| rewrite Hlen; apply cycle_next_lt; lia | lia | lia].
  rewrite Hlen, cycle_next_succ_mod by exact Hi.
  rewrite Nat.Div0.add_mod_idemp_l.
  replace (S i + L) with (i + 1 * S L) by lia.
  rewrite Nat.Div0.mod_add, Nat.mod_small by exact Hi.
  rewrite nth_lookup. unfold buffer1.
  by rewrite list_lookup_insert_eq by lia.
Qed.

(** What [np.fromiter] returns, when it returns: nothing, or the first
    [count] turns of the loop on the burst. *)
Lemma np_fromiter_feedback_loop_Ok (frequency damping : A) (count : Z)
    (buffer raw : list A) :
  feedback_loop_buffer self frequency = Ok buffer ->
  np_fromiter_feedback_loop self frequency damping count = Ok raw ->
  raw = []
  \/ (buffer <> [] /\ raw = fst (feedback_loop_from damping buffer 0 (Z.to_nat count))).
Proof.
  intros Hbuf. unfold np_fromiter_feedback_loop.
  destruct ((0 <? count)%Z || (count =? -1)%Z); [|intros [= <-]; by left].
  rewrite Hbuf. cbn [obind]. destruct buffer as [|x buffer].
  - destruct (0 <? count)%Z; [discriminate | intros [= <-]; by left].
  - destruct (0 <? count)%Z; [|discriminate]. intros [= <-]. by right.
Qed.

(** [np.fromiter] with a count [N] returns [max(0, N)] samples, when it
    returns. *)
Lemma np_fromiter_feedback_loop_length (frequency damping : A) (count : Z)
    (raw : list A) :
  np_fromiter_feedback_loop self frequency damping count = Ok raw ->
  length raw = Z.to_nat count.
Proof.
  unfold np_fromiter_feedback_loop.
  destruct (Z.ltb_spec 0 count) as [Hpos|Hneg]; cbn [orb].
  - destruct (feedback_loop_buffer self frequency) as [buffer| |]; try discriminate.
    cbn [obind]. destruct buffer as [|x buffer]; [discriminate|].
    intros [= <-]. apply feedback_loop_from_length.
  - assert (Z.to_nat count = 0%nat) as -> by lia.
    destruct (count =? -1)%Z; [|by intros [= <-]].
    destruct (feedback_loop_buffer self frequency) as [buffer| |]; try discriminate.
    cbn [obind]. destruct buffer as [|x buffer]; [|discriminate]. by intros [= <-].
Qed.

(** X1. The first period of the raw output is the burst itself: while
    [t] is below the size of the delay line, the sample pulled at step [t]
    is cell [t] of what the burst generator returned, untouched. *)
Theorem vibrate_first_period_is_burst (frequency damping : A) (count : Z)
    (buffer raw : list A) (t : nat) :
  feedback_loop_buffer self frequency = Ok buffer ->
  np_fromiter_feedback_loop self frequency damping count = Ok raw ->
  t < length buffer -> t < length raw ->
  raw !! t = buffer !! t.
Proof.
  intros Hbuf Hraw Ht Htraw.
  destruct (np_fromiter_feedback_loop_Ok _ _ _ _ _ Hbuf Hraw) as [->|[_ ->]];
    [cbn in Htraw; lia|].
  rewrite feedback_loop_from_length in Htraw.
  pose proof (feedback_loop_first_period damping (Z.to_nat count) buffer 0 t) as Hfirst.
  rewrite Nat.add_0_l, Nat.mod_small in Hfirst by exact Ht.
  destruct (lookup_lt_is_Some_2
              (fst (feedback_loop_from damping buffer 0 (Z.to_nat count))) t)
    as [y Hy]; [by rewrite feedback_loop_from_length|].
  destruct (lookup_lt_is_Some_2 buffer t Ht) as [x Hx].
  rewrite (nth_lookup_Some _ _ _ _ Hy), (nth_lookup_Some _ _ _ _ Hx) in Hfirst by lia.
  rewrite Hy, Hx. f_equal. apply Hfirst; lia.
Qed.

(** X2. The raw output obeys the difference equation of the plucked
    string: on a delay line of [L >= 2] cells every sample is
    [(raw[t] + raw[t+1]) * damping], taken one period ([L] samples)
    earlier; on a delay line of a single cell, [raw[t+1]] is
    [(raw[t] + raw[t]) * damping]. *)
Theorem vibrate_difference_equation (frequency damping : A) (count : Z)
    (buffer raw : list A) (t : nat) :
  feedback_loop_buffer self frequency = Ok buffer ->
  np_fromiter_feedback_loop self frequency damping count = Ok raw ->
  t + length buffer < length raw ->
  (2 <= length buffer ->
     nth (t + length buffer) raw s_zero
     = s_mul (s_add (nth t raw s_zero) (nth (t + 1) raw s_zero)) damping)
  /\ (length buffer = 1 ->
      nth (t + 1) raw s_zero
      = s_mul (s_add (nth t raw s_zero) (nth t raw s_zero)) damping).
Proof.
  intros Hbuf Hraw Ht.
  destruct (np_fromiter_feedback_loop_Ok _ _ _ _ _ Hbuf Hraw) as [->|[Hne ->]];
    [cbn in Ht; lia|].
  rewrite feedback_loop_from_length in Ht.
  set (N := Z.to_nat count) in *.
  assert (HL : 0 < length buffer) by (destruct buffer; [done | cbn; lia]).
  replace N with (t + (N - t)) by lia.
  rewrite feedback_loop_from_app.
  destruct (feedback_loop_keeps_ring damping t buffer 0) as [Hlen Hidx]; [lia|].
  pose proof (feedback_loop_from_length damping t buffer 0) as Hys.
  destruct (feedback_loop_from damping buffer 0 t) as [ys [buffer' i']].
  cbn [fst snd] in Hlen, Hidx, Hys.
  assert (Hi' : i' < length buffer') by (rewrite Hlen, Hidx; apply Nat.mod_upper_bound; lia).
  pose proof (feedback_loop_period_later damping (N - t) buffer' i' Hi') as Hlater.
  pose proof (feedback_loop_first_period damping (N - t) buffer' i' 0 Hi') as Hzero.
  pose proof (feedback_loop_first_period damping (N - t) buffer' i' 1 Hi') as Hone.
  destruct (feedback_loop_from damping buffer' i' (N - t)) as [zs st].
  cbn [fst] in *.
  rewrite Nat.add_0_r, Nat.mod_small in Hzero by exact Hi'.
  assert (Hnth : forall j, nth (t + j) (ys ++ zs) s_zero = nth j zs s_zero).
  { intros j. rewrite app_nth2 by lia. f_equal. lia. }
  assert (E0 : nth t (ys ++ zs) s_zero = nth 0 zs s_zero).
  { rewrite <- (Hnth 0). f_equal. lia. }
  rewrite !Hnth, E0, <- Hlen. split.
  - intros H2. rewrite Hlater, Hzero, Hone by lia. reflexivity.
  - intros H1. rewrite H1 in Hlater. rewrite Hlater, Hzero by lia.
    replace ((i' + 1) mod 1) with i'; [reflexivity|].
    rewrite Nat.mod_1_r. lia.
Qed.

End LoopRecurrence.

(** * The raw output on binary64 *)

Section F64Finite.
Local Open Scope float_scope.

Lemma f64_bounded_finite (y P : float) :
  (abs y <=? P) = true -> (P <=? half_max) = true ->
  is_nan y = false /\ is_infinity y = false.
Proof.
  intros Hy HP. pose proof (f64_leb_trans _ _ _ Hy HP) as Hle.
  rewrite FloatAxioms.leb_spec, abs_spec in Hle.
  change (Prim2SF half_max) with (S754_finite false 9007199254740991 970) in Hle.
  split.
  - by apply f64_number_inv, (SFleb_number _ _ Hle).
  - unfold is_infinity. rewrite FloatAxioms.eqb_spec, abs_spec.
    change (Prim2SF infinity) with (S754_infinity false).
    by destruct (Prim2SF y) as [[]|[]| |[] m e].
Qed.

Context {Time Chord : Type}.
Variable self : Synthesiser (A:=float) (Time:=Time) (Chord:=Chord).

(** X16. On binary64, for a damping in (0, 0.5] and a burst of numbers
    (no NaN) whose largest magnitude is at most half the largest finite
    binary64 number, every sample of the raw output is a finite number:
    the loop makes no infinity and no NaN. *)
Theorem vibrate_raw_is_finite (frequency damping : float) (count : Z)
    (buffer raw : list float) :
  damping_ok damping = true ->
  feedback_loop_buffer self frequency = Ok buffer ->
  Forall (fun x => is_nan x = false) buffer ->
  (peak buffer <=? half_max) = true ->
  np_fromiter_feedback_loop self frequency damping count = Ok raw ->
  Forall (fun y => is_nan y = false /\ is_infinity y = false) raw.
Proof.
  intros Hk Hbuf Hnum Hmax Hraw.
  destruct (np_fromiter_feedback_loop_Ok self _ _ _ _ _ Hbuf Hraw) as [->|[_ ->]];
    [constructor|].
  destruct (feedback_loop_from_bounded damping (Z.to_nat count) (peak buffer)
              Hk Hmax (peak_nonneg buffer Hnum) buffer 0 (peak_ge buffer Hnum))
    as [Hys _].
  eapply Forall_impl; [exact Hys|]. intros y Hy. cbn in Hy.
  by apply (f64_bounded_finite y (peak buffer)).
Qed.

End F64Finite.

(** * More about the mixer *)

Section OverlayMore.
Context {A : Type} `{SampleOps A} {Time Chord : Type}.
Variable get_num_samples : Time -> Z -> Z.
Variable self : Synthesiser (A:=A) (Time:=Time) (Chord:=Chord).

(** X5. A single waveform is mixed into the zero buffer at offset 0
    whatever the delay, negative ones included: the output has its length
    and holds [0 + x] for each of its samples [x]. *)
Theorem overlay_single_sound (sound : list A) (delay : Time) :
  _overlay get_num_samples self [sound] delay = Ok (map (s_add s_zero) sound).
Proof.
  unfold _overlay. cbn [overlay_ends py_max fold_left obind].
  rewrite Z.mul_0_l, Z.add_0_l. unfold np_zeros.
  destruct (Z.ltb_spec (Z.of_nat (length sound)) 0); [lia|].
  cbn [obind overlay_loop]. rewrite Z.mul_0_l, Nat2Z.id.
  rewrite iadd_slice_in_range by (rewrite ?length_replicate; lia).
  cbn [obind]. f_equal. apply list_eq. intros j.
  rewrite list_lookup_imap, list_lookup_fmap.
  destruct (sound !! j) as [x|] eqn:Hx.
  - pose proof (lookup_lt_Some _ _ _ Hx) as Hj.
    destruct (lookup_lt_is_Some_2 (replicate (length sound) (s_zero (A:=A))) j)
      as [z Hz]; [by rewrite length_replicate|].
    rewrite Hz. apply lookup_replicate in Hz as [-> _]. cbn.
    unfold mix_step.
    destruct (Z.leb_spec 0 (Z.of_nat j)); [|lia].
    destruct (Z.ltb_spec (Z.of_nat j) (0 + Z.of_nat (length sound))); [|lia].
    cbn [andb]. rewrite Z.sub_0_r, Nat2Z.id.
    by rewrite (nth_lookup_Some _ _ _ _ Hx).
  - apply lookup_ge_None in Hx.
    rewrite (proj2 (lookup_ge_None _ _)); [reflexivity|].
    by rewrite length_replicate.
Qed.

End OverlayMore.

Section OverlayNegativeDelay.
Context {A : Type} `{SampleOps A} {Time Chord : Type}.
Variable get_num_samples : Time -> Z -> Z.
Variable self : Synthesiser (A:=A) (Time:=Time) (Chord:=Chord).

(** A slice whose bounds resolve to [lo] and [lo + len(sound)]. *)
Lemma iadd_slice_resolved (samples sound : list A) (start stop : Z) (lo : nat) :
  slice_index (Z.of_nat (length samples)) start = Z.of_nat lo ->
  slice_index (Z.of_nat (length samples)) stop = Z.of_nat (lo + length sound) ->
  lo + length sound <= length samples ->
  iadd_slice samples start stop sound
  = Ok (imap (fun j x => mix_step (Z.of_nat lo) sound (Z.of_nat j) x) samples).
Proof.
  intros Hstart Hstop Hfit. rewrite Nat2Z.inj_add in Hstop.
  rewrite <- (iadd_slice_in_range samples sound (Z.of_nat lo)) by lia.
  unfold iadd_slice. rewrite Hstart, Hstop.
  by rewrite !slice_index_in_range by lia.
Qed.

(** A slice of another length than a sound of two samples or more. *)
Lemma iadd_slice_mismatch (samples sound : list A) (start stop : Z) :
  (Z.to_nat (slice_index (Z.of_nat (length samples)) stop)
   - Z.to_nat (slice_index (Z.of_nat (length samples)) start))%nat
  <> length sound ->
  2 <= length sound ->
  iadd_slice samples start stop sound = Raise ValueError.
Proof.
  intros Hlen H2. unfold iadd_slice, broadcast_to.
  rewrite decide_False by (intros E; apply Hlen; by rewrite E).
  destruct sound as [|x [|y sound]]; cbn in H2; try lia. reflexivity.
Qed.

(** X7. A negative delay is not rejected: numpy resolves the negative
    slice bounds from the end of the buffer. With two waveforms, the second
    of two samples or more, and a delay of [d < 0] samples: when
    [len(w1) < -d <= len(w0)] the second waveform is mixed in at offset
    [len(w0) + d], counted from the end of the first; in every other case
    the slice and the waveform differ in length and the call raises
    [ValueError]. *)
Theorem overlay_negative_delay (w0 w1 : list A) (delay : Time) :
  let d := get_num_samples delay (sampling_rate self) in
  (d < 0)%Z ->
  2 <= length w1 ->
  ((Z.of_nat (length w1) < - d <= Z.of_nat (length w0))%Z ->
     _overlay get_num_samples self [w0; w1] delay
     = Ok (imap (fun j x =>
                   mix_step (Z.of_nat (length w0) + d) w1 (Z.of_nat j)
                     (s_add s_zero x)) w0))
  /\ (~ (Z.of_nat (length w1) < - d <= Z.of_nat (length w0))%Z ->
      _overlay get_num_samples self [w0; w1] delay = Raise ValueError).
Proof.
  intros d Hd H2. unfold _overlay. fold d.
  cbn [overlay_ends py_max fold_left obind].
  rewrite Z.mul_0_l, !Z.add_0_l, Z.mul_1_l.
  set (n := Z.max (Z.of_nat (length w0)) (d + Z.of_nat (length w1))).
  assert (Hn : (0 <= n)%Z) by lia.
  unfold np_zeros. destruct (Z.ltb_spec n 0); [lia|].
  cbn [obind overlay_loop]. rewrite Z.mul_0_l.
  change (0 + 1)%Z with 1%Z. rewrite Z.mul_1_l.
  rewrite iadd_slice_in_range by (rewrite ?length_replicate; lia).
  cbn [obind].
  set (samples := imap _ (replicate (Z.to_nat n) s_zero)).
  assert (Hlen : Z.of_nat (length samples) = n).
  { unfold samples. rewrite length_imap, length_replicate. lia. }
  split.
  - intros [Hlt Hle].
    rewrite (iadd_slice_resolved samples w1 d (d + Z.of_nat (length w1))
               (Z.to_nat (Z.of_nat (length w0) + d))).
    + cbn [obind]. f_equal. apply list_eq. intros j.
      unfold samples. rewrite !list_lookup_imap.
      replace (Z.to_nat n) with (length w0) by lia.
      rewrite Z2Nat.id by lia.
      destruct (w0 !! j) as [x|] eqn:Hx.
      * pose proof (lookup_lt_Some _ _ _ Hx) as Hj.
        destruct (lookup_lt_is_Some_2 (replicate (length w0) (s_zero (A:=A))) j)
          as [z Hz]; [by rewrite length_replicate|].
        rewrite Hz. apply lookup_replicate in Hz as [-> _]. cbn. f_equal. f_equal.
        unfold mix_step.
        destruct (Z.leb_spec 0 (Z.of_nat j)); [|lia].
        destruct (Z.ltb_spec (Z.of_nat j) (0 + Z.of_nat (length w0))); [|lia].
        cbn [andb]. rewrite Z.sub_0_r, Nat2Z.id.
        by rewrite (nth_lookup_Some _ _ _ _ Hx).
      * apply lookup_ge_None in Hx.
        rewrite (proj2 (lookup_ge_None _ _)); [reflexivity|].
        by rewrite length_replicate.
    + rewrite Hlen. unfold slice_index. destruct (Z.ltb_spec d 0); lia.
    + rewrite Hlen. unfold slice_index.
      destruct (Z.ltb_spec (d + Z.of_nat (length w1)) 0); lia.
    + lia.
  - intros Hnot. rewrite iadd_slice_mismatch; [reflexivity | | exact H2].
    rewrite Hlen. unfold slice_index.
    destruct (Z.ltb_spec d 0); [|lia].
    destruct (Z.ltb_spec (d + Z.of_nat (length w1)) 0); lia.
Qed.

End OverlayNegativeDelay.

Section OverlayCausal.
Context {A : Type} `{SampleOps A} {Time Chord : Type}.
Variable get_num_samples : Time -> Z -> Z.
Variable self : Synthesiser (A:=A) (Time:=Time) (Chord:=Chord).

Lemma mix_from_app (d : Z) (sounds more : list (list A)) (j : Z) :
  forall (i : Z) (acc : A),
    mix_from d i (sounds ++ more) j acc
    = mix_from d (i + Z.of_nat (length sounds)) more j (mix_from d i sounds j acc).
Proof.
  induction sounds as [|sound rest IH]; intros i acc.
  - cbn. by rewrite Z.add_0_r.
  - cbn [app mix_from length]. rewrite IH. f_equal. lia.
Qed.

(** X8. A string does not change what sounds before its onset: with a
    delay of [d >= 0] samples, adding one more waveform at the end of the
    sequence leaves every output sample before position [len(sounds) * d]
    as it was. *)
Theorem overlay_causal (sounds : list (list A)) (sound : list A) (delay : Time)
    (out out' : list A) (j : nat) :
  let d := get_num_samples delay (sampling_rate self) in
  (0 <= d)%Z ->
  _overlay get_num_samples self sounds delay = Ok out ->
  _overlay get_num_samples self (sounds ++ [sound]) delay = Ok out' ->
  j < length out ->
  (Z.of_nat j < Z.of_nat (length sounds) * d)%Z ->
  out' !! j = out !! j.
Proof.
  intros d Hd Hout Hout' Hj Hbefore.
  assert (Hne : sounds <> []) by (intros ->; discriminate).
  assert (Hne' : sounds ++ [sound] <> []) by (by destruct sounds).
  destruct (overlay_in_range get_num_samples self sounds delay Hne Hd)
    as (n & Hmax & Hn).
  destruct (overlay_in_range get_num_samples self (sounds ++ [sound]) delay Hne' Hd)
    as (n' & Hmax' & Hn').
  fold d in Hmax, Hn, Hmax', Hn'.
  rewrite Hout in Hn. injection Hn as ->.
  rewrite Hout' in Hn'. injection Hn' as ->.
  rewrite length_imap, length_replicate in Hj.
  assert (Hle : n <= n').
  { destruct (py_max_spec (overlay_ends d 0 sounds)) as (m & Hm & Hin & _).
    { destruct sounds; [done | discriminate]. }
    destruct (py_max_spec (overlay_ends d 0 (sounds ++ [sound]))) as (m' & Hm' & _ & Hub').
    { destruct sounds; discriminate. }
    rewrite Hmax in Hm. injection Hm as <-.
    rewrite Hmax' in Hm'. injection Hm' as <-.
    rewrite Forall_lookup in Hub'.
    apply list_elem_of_lookup in Hin as [i Hi].
    rewrite overlay_ends_lookup in Hi.
    destruct (sounds !! i) as [s|] eqn:Hs; [|discriminate].
    cbn in Hi. injection Hi as Hi.
    assert (Hle : (Z.of_nat n <= Z.of_nat n')%Z); [|lia].
    apply (Hub' i).
    rewrite overlay_ends_lookup, lookup_app_l by (by eapply lookup_lt_Some).
    rewrite Hs. cbn. f_equal. lia. }
  rewrite !list_lookup_imap.
  destruct (lookup_lt_is_Some_2 (replicate n (s_zero (A:=A))) j) as [x ->];
    [by rewrite length_replicate|].
  destruct (lookup_lt_is_Some_2 (replicate n' (s_zero (A:=A))) j) as [x' ->];
    [rewrite length_replicate; lia|].
  cbn. f_equal. rewrite mix_from_app. cbn [mix_from]. unfold mix_step at 1.
  destruct (Z.leb_spec ((0 + Z.of_nat (length sounds)) * d) (Z.of_nat j)); [lia|].
  reflexivity.
Qed.

(** Strings of one length: the mix lasts [(k - 1) * d + n] samples. *)
Lemma overlay_equal_lengths (sounds : list (list A)) (delay : Time)
    (out : list A) (n : nat) :
  let d := get_num_samples delay (sampling_rate self) in
  (0 <= d)%Z ->
  Forall (fun sound => length sound = n) sounds ->
  _overlay get_num_samples self sounds delay = Ok out ->
  Z.of_nat (length out) = ((Z.of_nat (length sounds) - 1) * d + Z.of_nat n)%Z.
Proof.
  intros d Hd Hall Hout.
  assert (Hne : sounds <> []) by (intros ->; discriminate).
  destruct (overlay_in_range get_num_samples self sounds delay Hne Hd)
    as (m & Hmax & Hm).
  fold d in Hmax, Hm. rewrite Hout in Hm. injection Hm as ->.
  rewrite length_imap, length_replicate.
  destruct (py_max_spec (overlay_ends d 0 sounds)) as (m' & Hm' & Hin & Hub).
  { destruct sounds; [done | discriminate]. }
  rewrite Hmax in Hm'. injection Hm' as <-.
  rewrite Forall_lookup in Hub. rewrite Forall_lookup in Hall.
  apply Z.le_antisymm.
  - apply list_elem_of_lookup in Hin as [i Hi].
    rewrite overlay_ends_lookup in Hi.
    destruct (sounds !! i) as [s|] eqn:Hs; [|discriminate].
    cbn in Hi. injection Hi as Hi.
    rewrite (Hall i s Hs) in Hi. apply lookup_lt_Some in Hs. nia.
  - destruct (lookup_lt_is_Some_2 sounds (length sounds - 1)) as [s Hs].
    { destruct sounds; [done | cbn; lia]. }
    specialize (Hub (length sounds - 1)
                  (((0 + Z.of_nat (length sounds - 1)) * d + Z.of_nat (length s))%Z)).
    rewrite overlay_ends_lookup, Hs in Hub. specialize (Hub eq_refl).
    rewrite (Hall _ s Hs) in Hub.
    assert (length sounds <> 0) by (destruct sounds; [done | cbn; lia]).
    replace (0 + Z.of_nat (length sounds - 1))%Z
      with (Z.of_nat (length sounds) - 1)%Z in Hub by lia.
    exact Hub.
Qed.

End OverlayCausal.

(** * More about the caches *)

Section CacheMore.
Context {A : Type} `{ScalarLaws A}.
Context {Time : Type} `{EqDecision Time}.
Context {Chord : Type} `{EqDecision Chord}.
Variable get_num_samples : Time -> Z -> Z.
Variables remove_dc normalise : list A -> outcome (list A).
Variable self : Synthesiser (A:=A) (Time:=Time) (Chord:=Chord).

Local Abbreviation vibrate_wrapped := (_vibrate_wrapped get_num_samples remove_dc normalise self).
Local Abbreviation vibrate := (_vibrate get_num_samples remove_dc normalise self).
Local Abbreviation vibrate_all := (vibrate_each get_num_samples remove_dc normalise self).
Local Abbreviation strum := (strum_strings get_num_samples remove_dc normalise self).
Local Abbreviation strum_wrapped := (strum_strings_wrapped get_num_samples remove_dc normalise self).
Local Abbreviation strum_uncached := (strum_strings_uncached get_num_samples remove_dc normalise self).
Local Abbreviation sound_caches := (caches_sound get_num_samples remove_dc normalise self).
Local Abbreviation can_reach := (reachable get_num_samples remove_dc normalise self).
Local Abbreviation tables := (caches (A:=A) (Time:=Time) (Chord:=Chord)).

(** A call of [_vibrate] that does not return leaves the tables as they
    were. *)
Lemma vibrate_failure (frequency : A) (duration : Time) (damping : A) (c : tables)
    (r : outcome (list A)) :
  sound_caches c ->
  vibrate_wrapped frequency duration damping = r ->
  is_ok r = false ->
  vibrate frequency duration damping c = (r, c).
Proof.
  intros [Hv _] Hr Hfail. unfold _vibrate, cache.
  destruct (lookup_cache _ _ (vibrate_cache c)) as [w|] eqn:Hhit.
  - apply Hv in Hhit. rewrite Hhit in Hr. subst r. discriminate.
  - unfold mlift. rewrite Hr. by destruct r.
Qed.

Lemma vibrate_each_failure (before after : list Pitch) (pitch : Pitch)
    (duration : Time) (r : outcome (list A)) :
  Forall (fun p =>
            is_ok (vibrate_wrapped (frequency p) duration (damping (instrument self)))
            = true) before ->
  vibrate_wrapped (frequency pitch) duration (damping (instrument self)) = r ->
  is_ok r = false ->
  forall c : tables,
    sound_caches c ->
    exists e : outcome (list (list A)),
      vibrate_all (before ++ pitch :: after) duration c
      = (e, snd (vibrate_all before duration c))
      /\ is_ok e = false
      /\ (forall (k : list (list A) -> outcome (list A)), obind e k = r).
Proof.
  intros Hbefore Hr Hfail.
  induction Hbefore as [|p before Hp _ IH]; intros c Hc.
  - cbn [app vibrate_each]. unfold mbind, mret. cbn [snd].
    rewrite (vibrate_failure _ _ _ c r Hc Hr Hfail).
    destruct r as [w| |]; [discriminate| |]; eexists; (split; [reflexivity|]); done.
  - cbn [app vibrate_each]. unfold mbind.
    destruct (vibrate_transparent get_num_samples remove_dc normalise self
                (frequency p) duration (damping (instrument self)) c Hc) as [Hres Hc1].
    destruct (vibrate (frequency p) duration (damping (instrument self)) c)
      as [res c1]. cbn [fst snd] in Hres, Hc1.
    rewrite <- Hres in Hp. destruct res as [w| |]; try discriminate.
    destruct (IH c1 Hc1) as (e & He & Hfail_e & Hbind).
    rewrite He.
    destruct (vibrate_each_transparent get_num_samples remove_dc normalise self
                before duration c1 Hc1) as [Hres2 _].
    destruct (vibrate_all before duration c1) as [res2 c2]. cbn [fst snd] in *.
    destruct e as [ws| |]; [discriminate| |];
      destruct res2 as [ws2| |]; cbn [snd mret];
      eexists; (split; [reflexivity|]); split; try done;
      intros k; apply (Hbind (fun _ => r)).
Qed.

(** X10. When the waveform of a string cannot be made, [strum_strings] ends
    as that call of [_vibrate] ends (the same exception, or no return), as
    soon as the strings before it in the stroke are done: the tables then
    hold what those earlier strings stored and nothing more, in particular
    no entry for the strum. *)
Theorem strum_strings_first_failure (chord : Chord) (velocity : Velocity)
    (vibration_arg : option Time) (before after : list Pitch) (pitch : Pitch)
    (r : outcome (list A)) (c : tables) :
  let duration :=
    match vibration_arg with
    | None => vibration (instrument self)
    | Some t => t
    end in
  let stroke :=
    match direction velocity with
    | UP => upstroke (instrument self)
    | DOWN => downstroke (instrument self)
    end in
  can_reach c ->
  stroke chord = before ++ pitch :: after ->
  Forall (fun p =>
            is_ok (vibrate_wrapped (frequency p) duration (damping (instrument self)))
            = true) before ->
  vibrate_wrapped (frequency pitch) duration (damping (instrument self)) = r ->
  is_ok r = false ->
  strum chord velocity vibration_arg c = (r, snd (vibrate_all before duration c)).
Proof.
  intros duration stroke Hc Hstroke Hbefore Hr Hfail.
  apply reachable_sound in Hc.
  destruct (vibrate_each_failure before after pitch duration r Hbefore Hr Hfail c Hc)
    as (e & He & Hfail_e & Hbind).
  assert (Hbody : strum_wrapped chord velocity vibration_arg c
                  = (r, snd (vibrate_all before duration c))).
  { unfold strum_strings_wrapped, mbind, mlift. fold duration stroke.
    rewrite Hstroke, He.
    specialize (Hbind (fun _ => r)).
    destruct e as [ws| |]; [discriminate| |]; cbn in Hbind; by rewrite Hbind. }
  unfold strum_strings, cache.
  destruct (lookup_cache _ _ (strum_cache c)) as [w|] eqn:Hhit.
  - destruct Hc as [Hv Hs]. apply Hs in Hhit.
    destruct (strum_wrapped_transparent get_num_samples remove_dc normalise self
                chord velocity vibration_arg c (conj Hv Hs)) as [Hres _].
    rewrite Hbody in Hres. cbn [fst] in Hres. rewrite Hhit in Hres.
    rewrite Hres in Hfail. discriminate.
  - rewrite Hbody. by destruct r.
Qed.

(** X13. Leaving [vibration] out and passing the instrument's own duration
    give the same result, though the two calls are cached under different
    keys. *)
Theorem strum_strings_default_vibration (chord : Chord) (velocity : Velocity)
    (c c' : tables) :
  can_reach c -> can_reach c' ->
  fst (strum chord velocity None c)
  = fst (strum chord velocity (Some (vibration (instrument self))) c').
Proof.
  intros Hc Hc'. apply reachable_sound in Hc, Hc'.
  destruct (strum_transparent get_num_samples remove_dc normalise self
              chord velocity None c Hc) as [-> _].
  by destruct (strum_transparent get_num_samples remove_dc normalise self
                 chord velocity (Some (vibration (instrument self))) c' Hc')
    as [-> _].
Qed.

(** What [strum_strings] returns is the overlay of the waveforms of its
    strings. *)
Lemma strum_uncached_Ok (chord : Chord) (velocity : Velocity)
    (vibration_arg : option Time) (w : list A) :
  strum_uncached chord velocity vibration_arg = Ok w ->
  exists sounds,
    Forall2 (fun pitch sound =>
               vibrate_wrapped (frequency pitch)
                 (vibration_of self vibration_arg) (damping (instrument self))
               = Ok sound)
      (stroke_of self velocity chord) sounds
    /\ _overlay get_num_samples self sounds (delay velocity) = Ok w.
Proof.
  unfold strum_strings_uncached. intros Hw.
  destruct (vibrate_each_wrapped _ _ _ _ (stroke_of self velocity chord)
              (vibration_of self vibration_arg)) as [sounds| |] eqn:Heach;
    try discriminate.
  exists sounds. split; [|exact Hw].
  clear Hw. revert sounds Heach.
  induction (stroke_of self velocity chord) as [|p ps IH]; intros sounds Heach.
  - cbn in Heach. injection Heach as <-. constructor.
  - cbn [vibrate_each_wrapped] in Heach.
    destruct (vibrate_wrapped (frequency p) (vibration_of self vibration_arg)
                (damping (instrument self))) as [s| |] eqn:Hp; try discriminate.
    cbn [obind] in Heach.
    destruct (vibrate_each_wrapped _ _ _ _ ps (vibration_of self vibration_arg))
      as [ss| |]; try discriminate.
    cbn [obind] in Heach. injection Heach as <-.
    constructor; [exact Hp | by apply IH].
Qed.

(** X14. Whatever a process has called, a waveform found in the cache of
    [_vibrate] is the one the function body returns on the key looked up,
    and its damping passed the assertion; a waveform found in the cache of
    [strum_strings] is the overlay of those of its strings. *)
Theorem caches_hold_results (c : tables) :
  can_reach c ->
  (forall frequency duration damping w,
      lookup_cache vibrate_key_eqb (frequency, duration, damping) (vibrate_cache c)
        = Some w ->
      damping_ok damping = true
      /\ vibrate_wrapped frequency duration damping = Ok w)
  /\ (forall chord velocity vibration_arg w,
      lookup_cache strum_key_eqb (chord, velocity, vibration_arg) (strum_cache c)
        = Some w ->
      exists sounds,
        Forall2 (fun pitch sound =>
                   vibrate_wrapped (frequency pitch)
                     (vibration_of self vibration_arg) (damping (instrument self))
                   = Ok sound)
          (stroke_of self velocity chord) sounds
        /\ _overlay get_num_samples self sounds (delay velocity) = Ok w).
Proof.
  intros Hc. apply reachable_sound in Hc as [Hv Hs]. split.
  - intros f d k w Hhit. apply Hv in Hhit. split; [|exact Hhit].
    unfold _vibrate_wrapped in Hhit. by destruct (damping_ok k).
  - intros ch v a w Hhit. apply Hs in Hhit. by apply strum_uncached_Ok.
Qed.

Section Lengths.
Hypothesis remove_dc_length :
  forall x y, remove_dc x = Ok y -> length y = length x.
Hypothesis normalise_length :
  forall x y, normalise x = Ok y -> length y = length x.

Lemma vibrate_wrapped_length (frequency : A) (duration : Time) (damping : A)
    (w : list A) :
  vibrate_wrapped frequency duration damping = Ok w ->
  length w = Z.to_nat (get_num_samples duration (sampling_rate self)).
Proof.
  unfold _vibrate_wrapped. destruct (damping_ok damping); [|discriminate].
  destruct (np_fromiter_feedback_loop _ _ _ _) as [raw| |] eqn:Hraw;
    try discriminate. cbn [obind].
  destruct (remove_dc raw) as [centred| |] eqn:Hdc; try discriminate.
  cbn [obind]. intros Hnorm.
  rewrite (normalise_length _ _ Hnorm), (remove_dc_length _ _ Hdc).
  by apply (np_fromiter_feedback_loop_length self _ _ _ _ Hraw).
Qed.

End Lengths.

(** X3. With post-processing steps that return an array of the length they
    are given, a waveform that [_vibrate] returns has [max(0, N)] samples,
    [N] the sample count of the duration: [N] of them for a positive [N],
    none for the others. This holds whatever the burst generator returned
    and whether the waveform is computed or found in the cache. *)
Theorem vibrate_returns_count_samples (frequency : A) (duration : Time)
    (damping : A) (c : tables) (w : list A) :
  (forall x y, remove_dc x = Ok y -> length y = length x) ->
  (forall x y, normalise x = Ok y -> length y = length x) ->
  can_reach c ->
  fst (vibrate frequency duration damping c) = Ok w ->
  length w = Z.to_nat (get_num_samples duration (sampling_rate self)).
Proof.
  intros Hdc Hnorm Hc Hw. apply reachable_sound in Hc.
  destruct (vibrate_transparent get_num_samples remove_dc normalise self
              frequency duration damping c Hc) as [Hres _].
  rewrite Hres in Hw. by apply (vibrate_wrapped_length Hdc Hnorm _ _ _ _ Hw).
Qed.

(** X15. With such post-processing and a delay of [d >= 0] samples, a strum
    of [k] strings that returns lasts [(k - 1) * d + max(0, N)] samples,
    [N] the sample count of the vibration: the last string starts
    [(k - 1) * d] samples in and sounds for [max(0, N)]. *)
Theorem strum_strings_length (chord : Chord) (velocity : Velocity)
    (vibration_arg : option Time) (c : tables) (w : list A) :
  let d := get_num_samples (delay velocity) (sampling_rate self) in
  let N := get_num_samples (vibration_of self vibration_arg) (sampling_rate self) in
  let k := length (stroke_of self velocity chord) in
  (forall x y, remove_dc x = Ok y -> length y = length x) ->
  (forall x y, normalise x = Ok y -> length y = length x) ->
  can_reach c ->
  (0 <= d)%Z ->
  fst (strum chord velocity vibration_arg c) = Ok w ->
  Z.of_nat (length w) = ((Z.of_nat k - 1) * d + Z.max 0 N)%Z.
Proof.
  intros d N k Hdc Hnorm Hc Hd Hw. apply reachable_sound in Hc.
  destruct (strum_transparent get_num_samples remove_dc normalise self
              chord velocity vibration_arg c Hc) as [Hres _].
  rewrite Hres in Hw.
  destruct (strum_uncached_Ok _ _ _ _ Hw) as (sounds & Hsounds & Hout).
  assert (Hall : Forall (fun sound => length sound = Z.to_nat N) sounds).
  { clear Hout. induction Hsounds as [|p s ps ss Hp _ IH]; constructor.
    - by apply (vibrate_wrapped_length Hdc Hnorm _ _ _ _ Hp).
    - exact IH. }
  rewrite (overlay_equal_lengths get_num_samples self sounds (delay velocity) w
             (Z.to_nat N) Hd Hall Hout).
  fold d. unfold k. rewrite (Forall2_length _ _ _ Hsounds). lia.
Qed.

End CacheMore.

(** * Two strings at once, on binary64 *)

Section F64Pair.
Local Open Scope float_scope.

Lemma SFadd_comm (x y : spec_float) : SF64add x y = SF64add y x.
Proof.
  unfold SF64add, SFadd.
  destruct x as [sx|sx| |sx mx ex], y as [sy|sy| |sy my ey];
    try (destruct sx); try (destruct sy); try reflexivity.
  all: by rewrite Z.min_comm, Z.add_comm.
Qed.

Lemma f64_add_comm (x y : float) : x + y = y + x.
Proof. apply Prim2SF_inj. rewrite !FloatAxioms.add_spec. apply SFadd_comm. Qed.

(** [(0 + a) + b] and [(0 + b) + a] are the same value. *)
Lemma SFadd_from_zero_comm (a b : spec_float) :
  SF64add (SF64add (S754_zero false) a) b = SF64add (SF64add (S754_zero false) b) a.
Proof.
  destruct a as [sa|sa| |sa ma ea], b as [sb|sb| |sb mb eb];
    try (destruct sa); try (destruct sb); try reflexivity.
  all: change (SF64add (S754_zero false) (S754_finite ?s ?m ?e))
         with (S754_finite s m e); apply SFadd_comm.
Qed.

Lemma f64_add_from_zero_comm (a b : float) : (0 + a) + b = (0 + b) + a.
Proof.
  apply Prim2SF_inj. rewrite !FloatAxioms.add_spec.
  change (Prim2SF 0) with (S754_zero false). apply SFadd_from_zero_comm.
Qed.

Context {Time Chord : Type}.
Variable get_num_samples : Time -> Z -> Z.
Variable self : Synthesiser (A:=float) (Time:=Time) (Chord:=Chord).

Lemma f64_mix_step_pair (w0 w1 : list float) (j : Z) :
  mix_step 0 w1 j (mix_step 0 w0 j 0) = mix_step 0 w0 j (mix_step 0 w1 j 0).
Proof.
  unfold mix_step.
  destruct ((0 <=? j)%Z && (j <? 0 + Z.of_nat (length w0))%Z);
    destruct ((0 <=? j)%Z && (j <? 0 + Z.of_nat (length w1))%Z);
    try reflexivity.
  apply f64_add_from_zero_comm.
Qed.

(** X9. On binary64 two waveforms struck at once (a delay of zero samples)
    mix to the same waveform in either order: every output sample is the
    same binary64 value (any NaN counting as one value). Rounding makes the
    order matter from three waveforms on only. *)
Theorem overlay_simultaneous_pair (w0 w1 : list float) (delay : Time) :
  get_num_samples delay (sampling_rate self) = 0%Z ->
  _overlay get_num_samples self [w0; w1] delay
  = _overlay get_num_samples self [w1; w0] delay.
Proof.
  intros Hd.
  destruct (overlay_in_range get_num_samples self [w0; w1] delay)
    as (n & Hmax & ->); [done | lia |].
  destruct (overlay_in_range get_num_samples self [w1; w0] delay)
    as (n' & Hmax' & ->); [done | lia |].
  rewrite Hd in *.
  assert (Hperm : [w0; w1] ≡ₚ [w1; w0]) by apply perm_swap.
  pose proof (overlay_simultaneous_size _ _ _ _ Hperm Hmax Hmax') as <-.
  f_equal. apply imap_ext. intros j x _.
  cbn [mix_from]. rewrite !Z.mul_0_r. apply f64_mix_step_pair.
Qed.

End F64Pair.

(** * The further properties at work *)

Section MoreConcrete.
Local Open Scope float_scope.

Local Abbreviation ten_ms := (Q2Qc (1 # 100)).
Local Abbreviation twenty_ms := (Q2Qc (2 # 100)).

Lemma demo_post_processing_length :
  (forall x y, Demo.remove_dc x = Ok y -> length y = length x)
  /\ (forall x y, Demo.normalise x = Ok y -> length y = length x).
Proof. split; intros x y [= <-]; apply length_map. Qed.

Lemma vibrate_first_period_is_burst_witness :
  Examples.raw_sound !! 7%nat = Demo.delay_line 200 !! 7%nat.
Proof.
  apply (vibrate_first_period_is_burst Demo.synthesiser 220 0.5 441).
  - vm_compute. reflexivity.
  - vm_compute. reflexivity.
  - vm_compute. lia.
  - vm_compute. lia.
Defined.

Lemma vibrate_difference_equation_witness :
  nth (5 + 200) Examples.raw_sound 0
  = (nth 5 Examples.raw_sound 0 + nth (5 + 1) Examples.raw_sound 0) * 0.5.
Proof.
  assert (Hlen : length (Demo.delay_line 200) = 200%nat) by (vm_compute; reflexivity).
  destruct (vibrate_difference_equation Demo.synthesiser 220 0.5 441
              (Demo.delay_line 200) Examples.raw_sound 5) as [Hlong _].
  - vm_compute. reflexivity.
  - vm_compute. reflexivity.
  - vm_compute. lia.
  - rewrite Hlen in Hlong. apply Hlong. lia.
Defined.

Lemma vibrate_returns_count_samples_witness :
  length (Demo.string_sound 220)
  = Z.to_nat (Demo.get_num_samples ten_ms (sampling_rate Demo.synthesiser))
  /\ length (A:=float) []
     = Z.to_nat (Demo.get_num_samples (Q2Qc (-1 # 100)) (sampling_rate Demo.synthesiser)).
Proof.
  destruct demo_post_processing_length as [Hdc Hnorm]. split.
  - apply (vibrate_returns_count_samples
             Demo.get_num_samples Demo.remove_dc Demo.normalise Demo.synthesiser
             220 ten_ms 0.5 no_caches (Demo.string_sound 220) Hdc Hnorm).
    + apply reachable_start.
    + vm_compute. reflexivity.
  - apply (vibrate_returns_count_samples
             Demo.get_num_samples Demo.remove_dc Demo.normalise Demo.synthesiser
             220 (Q2Qc (-1 # 100)) 0.5 no_caches [] Hdc Hnorm).
    + apply reachable_start.
    + vm_compute. reflexivity.
Defined.

Lemma vibrate_raw_is_finite_witness :
  Forall (fun y => is_nan y = false /\ is_infinity y = false) Examples.raw_sound.
Proof.
  refine (vibrate_raw_is_finite Demo.synthesiser 220 0.5 441
            (Demo.delay_line 200) Examples.raw_sound eq_refl _ _ _ _).
  - vm_compute. reflexivity.
  - apply (bool_decide_unpack
             (Forall (fun x => is_nan x = false) (Demo.delay_line 200))).
    vm_compute. exact I.
  - vm_compute. reflexivity.
  - vm_compute. reflexivity.
Defined.

Lemma overlay_negative_delay_witness :
  Demo.overlay [Examples.ascending; Examples.two_hundreds] Examples.minus_five_samples
  = Ok (imap (fun j x =>
                mix_step
                  (Z.of_nat (length Examples.ascending)
                   + Demo.get_num_samples Examples.minus_five_samples
                       (sampling_rate Demo.synthesiser))
                  Examples.two_hundreds (Z.of_nat j) (0 + x))
          Examples.ascending).
Proof.
  destruct (overlay_negative_delay Demo.get_num_samples Demo.synthesiser
              Examples.ascending Examples.two_hundreds Examples.minus_five_samples)
    as [Hwrap _].
  - vm_compute. reflexivity.
  - vm_compute. lia.
  - apply Hwrap. vm_compute. split; [reflexivity | discriminate].
Defined.

Lemma overlay_causal_witness :
  Examples.three_mixed !! 883%nat = Examples.two_mixed !! 883%nat.
Proof.
  apply (overlay_causal Demo.get_num_samples Demo.synthesiser
           [Examples.ascending; Examples.two_hundreds] Examples.ascending twenty_ms).
  - vm_compute. discriminate.
  - vm_compute. reflexivity.
  - vm_compute. reflexivity.
  - vm_compute. lia.
  - vm_compute. reflexivity.
Defined.

Lemma overlay_simultaneous_pair_witness :
  Demo.overlay [Examples.ascending; Examples.two_hundreds] (Q2Qc 0)
  = Demo.overlay [Examples.two_hundreds; Examples.ascending] (Q2Qc 0).
Proof.
  apply (overlay_simultaneous_pair Demo.get_num_samples Demo.synthesiser).
  reflexivity.
Defined.

Lemma strum_strings_first_failure_witness :
  Demo.strum [220; 0; 330] Examples.down_stroke None no_caches
  = (Raise ZeroDivisionError,
     snd (vibrate_each Demo.get_num_samples Demo.remove_dc Demo.normalise
            Demo.synthesiser [Build_Pitch 220] ten_ms no_caches)).
Proof.
  apply (strum_strings_first_failure
           Demo.get_num_samples Demo.remove_dc Demo.normalise Demo.synthesiser
           [220; 0; 330] Examples.down_stroke None
           [Build_Pitch 220] [Build_Pitch 330] (Build_Pitch 0)).
  - apply reachable_start.
  - reflexivity.
  - constructor 2; [vm_compute; reflexivity | constructor 1].
  - vm_compute. reflexivity.
  - reflexivity.
Defined.

Lemma strum_strings_default_vibration_witness :
  fst (Demo.strum Examples.two_strings Examples.down_stroke None no_caches)
  = fst (Demo.strum Examples.two_strings Examples.down_stroke
           (Some (vibration (instrument Demo.synthesiser))) no_caches).
Proof.
  apply (strum_strings_default_vibration
           Demo.get_num_samples Demo.remove_dc Demo.normalise Demo.synthesiser);
    apply reachable_start.
Defined.

Lemma caches_hold_results_witness :
  damping_ok 0.5 = true
  /\ Demo.vibrate_wrapped 220 ten_ms 0.5 = Ok (Demo.string_sound 220).
Proof.
  destruct (caches_hold_results
              Demo.get_num_samples Demo.remove_dc Demo.normalise Demo.synthesiser
              (snd (Demo.vibrate 220 ten_ms 0.5 no_caches))) as [Hvibrate _].
  - apply reachable_vibrate, reachable_start.
  - apply (Hvibrate 220 ten_ms 0.5 (Demo.string_sound 220)).
    vm_compute. reflexivity.
Defined.

Lemma strum_strings_length_witness :
  Z.of_nat (length Examples.strummed) = ((2 - 1) * 882 + Z.max 0 441)%Z
  /\ Z.of_nat (length (replicate 882 0%float)) = ((2 - 1) * 882 + Z.max 0 (-441))%Z.
Proof.
  destruct demo_post_processing_length as [Hdc Hnorm]. split.
  - apply (strum_strings_length
             Demo.get_num_samples Demo.remove_dc Demo.normalise Demo.synthesiser
             Examples.two_strings Examples.down_stroke None no_caches
             Examples.strummed Hdc Hnorm).
    + apply reachable_start.
    + vm_compute. discriminate.
    + vm_compute. reflexivity.
  - apply (strum_strings_length
             Demo.get_num_samples Demo.remove_dc Demo.normalise Demo.synthesiser
             Examples.two_strings Examples.down_stroke (Some (Q2Qc (-1 # 100)))
             no_caches (replicate 882 0%float) Hdc Hnorm).
    + apply reachable_start.
    + vm_compute. discriminate.
    + vm_compute. reflexivity.
Defined.

End MoreConcrete.
